(** * memes-gifs: the feed engine of [src/js/app.js] and the theme store of
    [src/js/theme.js], embedded in Rocq.

    The [MemeApp] object is a record of its fields; each method is a function
    on that record.  Asynchronous methods are split at their [await]: the
    part that runs synchronously when the method is called, and the part that
    runs when the fetch settles.  Loads of one session are serialized by
    [isLoading], so a whole load is also given as one atomic step. *)

From stdpp Require Import base gmap strings list sorting.


(* ------------------------------------------------------------------ *)
(** ** Raw records and items *)

(** One record of the upstream [memes] array (the fields [parseMemes]
    reads). *)
Record post := mkPost {
  postLink : string;
  post_title : string;
  post_subreddit : string;
  post_url : string;
  ups : Z;
  post_author : string;
  nsfw : bool
}.

(** The JSON body returned by [fetchMemes] as seen by [parseMemes]:
    - [NoMemes]: [data.memes] is missing or falsy, [parseMemes] returns [[]];
    - [MemeList ps]: [data.memes] is an array of records;
    - [NotIterable]: [data.memes] is truthy but not iterable, so the
      [for (const post of data.memes)] loop throws a [TypeError]. *)
Inductive response :=
| NoMemes
| MemeList (ps : list post)
| NotIterable.

(** The item object built by [parseMemes]. *)
Record meme := mkMeme {
  id : string;
  title : string;
  source : string;
  imageUrl : string;
  upvotes : Z;
  permalink : string;
  author : string
}.

Definition to_meme (p : post) : meme :=
  {| id := postLink p;
     title := post_title p;
     source := ("r/" ++ post_subreddit p)%string;
     imageUrl := post_url p;
     upvotes := ups p;
     permalink := postLink p;
     author := post_author p |}.

(* ------------------------------------------------------------------ *)
(** ** [parseMemes] *)

(** The loop of [parseMemes]: skip a seen [postLink], then skip NSFW,
    otherwise add the [postLink] to [seenIds] and push the item. *)
Fixpoint parse_loop (seenIds : gset string) (ps : list post)
  : list meme * gset string :=
  match ps with
  | [] => ([], seenIds)
  | p :: ps' =>
      if decide (postLink p ∈ seenIds) then parse_loop seenIds ps'
      else if nsfw p then parse_loop seenIds ps'
      else let '(ms, s) := parse_loop ({[postLink p]} ∪ seenIds) ps' in
           (to_meme p :: ms, s)
  end.

(** [parseMemes(data, subreddit)]; [None] is the [TypeError] thrown by the
    loop. *)
Definition parseMemes (seenIds : gset string) (data : response)
  : option (list meme * gset string) :=
  match data with
  | NoMemes => Some ([], seenIds)
  | MemeList ps => Some (parse_loop seenIds ps)
  | NotIterable => None
  end.

(* ------------------------------------------------------------------ *)
(** ** [shuffleArray] *)

Section Shuffle.
Context {A : Type}.

(** [[array[i], array[j]] = [array[j], array[i]]]: [array[i]] receives the
    old [array[j]], then [array[j]] the old [array[i]].  The loop only
    swaps indices below the length, where both lookups succeed. *)
Definition swap (a : list A) (i j : nat) : list A :=
  match a !! i, a !! j with
  | Some x, Some y => <[j:=x]> (<[i:=y]> a)
  | _, _ => a
  end.

(** [Math.random()] returns [r / 2^53] with [0 <= r < 2^53]; the index is
    [Math.floor(Math.random() * (i + 1))]. *)
Definition random_denominator : Z := 2 ^ 53.

Definition random_index (r : Z) (i : nat) : nat :=
  Z.to_nat (r * (Z.of_nat i + 1) / random_denominator).

(** The loop body run at index [i] and below, [rs] the successive
    [Math.random()] numerators. *)
Fixpoint shuffle_loop (i : nat) (rs : list Z) (a : list A) : list A :=
  match i with
  | 0 => a
  | S k => shuffle_loop k (tl rs) (swap a (S k) (random_index (hd 0%Z rs) (S k)))
  end.

(** [shuffleArray(array)]: [for (let i = array.length - 1; i > 0; i--)]. *)
Definition shuffleArray (rs : list Z) (a : list A) : list A :=
  shuffle_loop (length a - 1) rs a.

(** Reference Fisher–Yates, following the spec's words: for index [i] from
    last to first, swap with the chosen index in [[0, i]]; [cs] lists the
    choices for [i = n-1, ..., 0]. *)
Fixpoint fy_from (i : nat) (cs : list nat) (a : list A) : list A :=
  match i with
  | 0 => swap a 0 (hd 0 cs)
  | S k => fy_from k (tl cs) (swap a (S k) (hd 0 cs))
  end.

Definition fisher_yates (cs : list nat) (a : list A) : list A :=
  match length a with
  | 0 => a
  | S n => fy_from n cs a
  end.

End Shuffle.

(** All choice vectors for [n] elements: [[c_{n-1}; ...; c_0]] with
    [c_i <= i]; each has probability [1 / n!] when the choices are
    independent and uniform. *)
Fixpoint choice_space (n : nat) : list (list nat) :=
  match n with
  | 0 => [[]]
  | S k => flat_map (fun c => map (cons c) (choice_space k)) (seq 0 (S k))
  end.

(** The choices the source's loop makes from its draws, for an array of
    length [n]: [i = n-1, ..., 1], then the (no-op) choice 0 at [i = 0]. *)
Fixpoint draw_choices (i : nat) (rs : list Z) : list nat :=
  match i with
  | 0 => [0]
  | S k => random_index (hd 0%Z rs) (S k) :: draw_choices k (tl rs)
  end.

Definition choices_of (rs : list Z) (n : nat) : list nat :=
  match n with
  | 0 => []
  | S k => draw_choices k rs
  end.

(* ------------------------------------------------------------------ *)
(** ** The [MemeApp] object *)

(** The children of [#feed]: a skeleton card, a meme card, or the error box
    written by [showError]. *)
Inductive node :=
| Skeleton
| Card (m : meme)
| ErrorBox (message : string).

(** The fields of [MemeApp]; [loadingActive] is the [active] class of the
    loading indicator and [endShown] the display of [#endMessage]. *)
Record MemeApp := mkApp {
  isLoading : bool;
  hasMore : bool;
  currentSubredditIndex : nat;
  seenIds : gset string;
  failedAttempts : nat;
  itemsPerPage : nat;
  feed : list node;
  loadingActive : bool;
  endShown : bool
}.

Definition subreddits : list string :=
  ["ProgrammerHumor"; "programmingmemes"; "codingmemes"]%string.

Definition maxFailedAttempts : nat := 3.

Definition set_isLoading (b : bool) (st : MemeApp) : MemeApp :=
  mkApp b (hasMore st) (currentSubredditIndex st) (seenIds st)
    (failedAttempts st) (itemsPerPage st) (feed st) (loadingActive st) (endShown st).
Definition set_hasMore (b : bool) (st : MemeApp) : MemeApp :=
  mkApp (isLoading st) b (currentSubredditIndex st) (seenIds st)
    (failedAttempts st) (itemsPerPage st) (feed st) (loadingActive st) (endShown st).
Definition set_index (n : nat) (st : MemeApp) : MemeApp :=
  mkApp (isLoading st) (hasMore st) n (seenIds st)
    (failedAttempts st) (itemsPerPage st) (feed st) (loadingActive st) (endShown st).
Definition set_seenIds (s : gset string) (st : MemeApp) : MemeApp :=
  mkApp (isLoading st) (hasMore st) (currentSubredditIndex st) s
    (failedAttempts st) (itemsPerPage st) (feed st) (loadingActive st) (endShown st).
Definition set_failed (n : nat) (st : MemeApp) : MemeApp :=
  mkApp (isLoading st) (hasMore st) (currentSubredditIndex st) (seenIds st)
    n (itemsPerPage st) (feed st) (loadingActive st) (endShown st).
Definition set_feed (f : list node) (st : MemeApp) : MemeApp :=
  mkApp (isLoading st) (hasMore st) (currentSubredditIndex st) (seenIds st)
    (failedAttempts st) (itemsPerPage st) f (loadingActive st) (endShown st).
Definition set_loadingActive (b : bool) (st : MemeApp) : MemeApp :=
  mkApp (isLoading st) (hasMore st) (currentSubredditIndex st) (seenIds st)
    (failedAttempts st) (itemsPerPage st) (feed st) b (endShown st).
Definition set_endShown (b : bool) (st : MemeApp) : MemeApp :=
  mkApp (isLoading st) (hasMore st) (currentSubredditIndex st) (seenIds st)
    (failedAttempts st) (itemsPerPage st) (feed st) (loadingActive st) b.

(** [showSkeletons(count)]: clear the feed, append [count] skeletons. *)
Definition showSkeletons (count : nat) (st : MemeApp) : MemeApp :=
  set_feed (replicate count Skeleton) st.

(** [showError(message)]: the feed becomes the error box with its
    "Try Again" button (which calls [reloadFeed]). *)
Definition showError (message : string) (st : MemeApp) : MemeApp :=
  set_feed [ErrorBox message] st.

(** The constructor, then [setup()] up to the call of [loadInitialMemes]. *)
Definition initial_app (ipp : nat) : MemeApp :=
  mkApp false true 0 ∅ 0 ipp (replicate ipp Skeleton) false false.

(* ------------------------------------------------------------------ *)
(** ** [loadMore] *)

(** The synchronous part of [loadMore()], up to [await fetchMemes(...)];
    [None] when the guard returns at once. *)
Definition loadMore_start (st : MemeApp) : option MemeApp :=
  if isLoading st || negb (hasMore st) then None
  else Some (set_loadingActive true (set_isLoading true st)).

(** The fetch [loadMore] issues: [subreddits[currentSubredditIndex]] and
    [itemsPerPage]. *)
Definition loadMore_request (st : MemeApp) : option string * nat :=
  (subreddits !! currentSubredditIndex st, itemsPerPage st).

(** The [try] block after the fetch settled with [data] ([None] when
    [fetchMemes] returned [null]): [inl] when it completes, with the items
    appended to the feed, [inr] with the state when it throws. *)
Definition loadMore_try (st : MemeApp) (data : option response)
  : (MemeApp * list meme) + MemeApp :=
  let counted :=
    match data with
    | None => Some (set_failed (S (failedAttempts st)) st, [])
    | Some d =>
        match parseMemes (seenIds st) d with
        | None => None
        | Some (memes, s) =>
            let st1 := set_seenIds s st in
            match memes with
            | [] => Some (set_failed (S (failedAttempts st1)) st1, [])
            | _ :: _ =>
                Some (set_failed 0 (set_feed (feed st1 ++ map Card memes) st1), memes)
            end
        end
    end in
  match counted with
  | None => inr st
  | Some (st2, memes) =>
      let st3 := set_index ((currentSubredditIndex st2 + 1) mod length subreddits) st2 in
      if decide (maxFailedAttempts <= failedAttempts st3)
      then inl (set_endShown true (set_hasMore false st3), memes)
      else inl (st3, memes)
  end.

(** The rest of [loadMore()] once the fetch settled: the [try]/[catch],
    then [isLoading = false] and the indicator deactivated.  Returns the
    state and the items handed to the feed. *)
Definition loadMore_finish (st : MemeApp) (data : option response) : MemeApp * list meme :=
  let '(st1, memes) :=
    match loadMore_try st data with
    | inl r => r
    | inr st' => (set_failed (S (failedAttempts st')) st', [])
    end in
  (set_loadingActive false (set_isLoading false st1), memes).

(** A whole call of [loadMore()] whose fetch returns [data]. *)
Definition loadMore (st : MemeApp) (data : option response) : MemeApp * list meme :=
  match loadMore_start st with
  | None => (st, [])
  | Some st1 => loadMore_finish st1 data
  end.

(* ------------------------------------------------------------------ *)
(** ** [loadInitialMemes] *)

(** The synchronous part of [loadInitialMemes()]. *)
Definition loadInitial_start (st : MemeApp) : MemeApp :=
  set_failed 0 (set_isLoading true st).

(** The [for (const subreddit of this.subreddits)] loop; [results] holds
    the settled [fetchMemes(subreddit, 10)] of each category in order.
    [inr] when [parseMemes] throws, which rejects the promise of
    [loadInitialMemes] (nothing catches it). *)
Fixpoint initial_loop (st : MemeApp) (results : list (option response))
    (allMemes : list meme) : (MemeApp * list meme) + MemeApp :=
  match results with
  | [] => inl (st, allMemes)
  | None :: rest => initial_loop st rest allMemes
  | Some data :: rest =>
      match parseMemes (seenIds st) data with
      | None => inr st
      | Some (memes, s) => initial_loop (set_seenIds s st) rest (allMemes ++ memes)
      end
  end.

Definition no_memes_message : string := "No memes found. Please try again later."%string.

(** The rest of [loadInitialMemes()] once every fetch settled: shuffle with
    the draws [rs], clear the feed, then the error box or the first
    [itemsPerPage] items.  Returns the state and the items shown. *)
Definition loadInitial_finish (st : MemeApp) (results : list (option response))
    (rs : list Z) : MemeApp * list meme :=
  match initial_loop st results [] with
  | inr st' => (st', [])
  | inl (st1, allMemes) =>
      let shuffled := shuffleArray rs allMemes in
      let st2 := set_feed [] st1 in
      match allMemes with
      | [] => (set_isLoading false (showError no_memes_message st2), [])
      | _ :: _ =>
          let memesToShow := take (itemsPerPage st2) shuffled in
          (set_isLoading false (set_feed (feed st2 ++ map Card memesToShow) st2),
           memesToShow)
      end
  end.

Definition loadInitialMemes (st : MemeApp) (results : list (option response))
    (rs : list Z) : MemeApp * list meme :=
  loadInitial_finish (loadInitial_start st) results rs.

(* ------------------------------------------------------------------ *)
(** ** [reloadFeed] *)

(** The synchronous part of [reloadFeed()] (and of the reload button's
    click handler, which runs the same statements): the resets, then the
    call of [loadInitialMemes] up to its first [await]. *)
Definition reloadFeed (st : MemeApp) : MemeApp :=
  let st1 := set_failed 0 (set_seenIds ∅ (set_index 0 (set_hasMore true st))) in
  let st2 := set_feed [] (set_endShown false st1) in
  loadInitial_start (showSkeletons (itemsPerPage st2) st2).

(* ------------------------------------------------------------------ *)
(** ** Loads of one session *)

(** The loads of a session, each atomic: an incremental load whose fetch
    returns [data], or the initial load with its fetch results and draws. *)
Inductive load :=
| LoadMore (data : option response)
| LoadInitial (results : list (option response)) (rs : list Z).

Definition step (st : MemeApp) (l : load) : MemeApp * list meme :=
  match l with
  | LoadMore data => loadMore st data
  | LoadInitial results rs => loadInitialMemes st results rs
  end.

(** Runs the loads in order; returns the final state and every item handed
    to the feed, in order. *)
Fixpoint run (st : MemeApp) (ls : list load) : MemeApp * list meme :=
  match ls with
  | [] => (st, [])
  | l :: ls' =>
      let '(st1, r1) := step st l in
      let '(st2, r2) := run st1 ls' in
      (st2, r1 ++ r2)
  end.

(* ------------------------------------------------------------------ *)
(** ** [ThemeManager] ([src/js/theme.js]) *)

(** [localStorage.getItem('theme')] is [stored]; [theme] is the field of
    the object and [data_theme] the attribute on [<html>]. *)
Record ThemeManager := mkTheme {
  theme : string;
  data_theme : string;
  stored : option string
}.

(** JavaScript truthiness of [localStorage.getItem('theme')]. *)
Definition stored_truthy (v : option string) : bool :=
  match v with
  | Some t => negb (String.eqb t EmptyString)
  | None => false
  end.

(** [getInitialTheme()]; [prefersLight] is whether
    [matchMedia('(prefers-color-scheme: light)')] matches. *)
Definition getInitialTheme (v : option string) (prefersLight : bool) : string :=
  match v with
  | Some t => if stored_truthy v then t else if prefersLight then "light"%string else "dark"%string
  | None => if prefersLight then "light"%string else "dark"%string
  end.

(** [applyTheme(theme)]: set the attribute and the field, persist it. *)
Definition applyTheme (t : string) (tm : ThemeManager) : ThemeManager :=
  mkTheme t t (Some t).

(** The constructor: [getInitialTheme()], then [init()] applies it. *)
Definition theme_startup (v : option string) (prefersLight : bool) : ThemeManager :=
  let t := getInitialTheme v prefersLight in
  applyTheme t (mkTheme t EmptyString v).

(** [toggle()]. *)
Definition toggle (tm : ThemeManager) : ThemeManager :=
  applyTheme (if String.eqb (theme tm) "dark"%string then "light"%string else "dark"%string) tm.

(** The [change] listener of [watchSystemTheme()]; [matchesDark] is
    [e.matches] of [(prefers-color-scheme: dark)]. *)
Definition on_system_change (matchesDark : bool) (tm : ThemeManager) : ThemeManager :=
  if stored_truthy (stored tm) then tm
  else applyTheme (if matchesDark then "dark"%string else "light"%string) tm.

(** The scheme the OS asks for after a change event. *)
Definition os_theme (matchesDark : bool) : string :=
  if matchesDark then "dark"%string else "light"%string.

(* ------------------------------------------------------------------ *)
(** ** Predicates used by the statements *)

(** The items [r] handed to the feed while the ledger grew from [s] to
    [s']: pairwise distinct ids, none in [s], all in [s']. *)
Definition fresh_render (s s' : gset string) (r : list meme) : Prop :=
  (s ⊆ s') ∧ NoDup (id <$> r) ∧ (∀ m, m ∈ r → (id m ∉ s) ∧ (id m ∈ s')).

(** A settled fetch that yields no item: [fetchMemes] returned [null], or
    [parseMemes] returned an empty array. *)
Definition zero_yield (seen : gset string) (data : option response) : Prop :=
  data = None ∨ ∃ d s, data = Some d ∧ parseMemes seen d = Some ([], s).

(** [n] calls of [loadMore()] made one after another before any fetch
    settles (e.g. the observer firing repeatedly): the number of fetches
    issued, and the state. *)
Fixpoint rapid_calls (st : MemeApp) (n : nat) : nat * MemeApp :=
  match n with
  | 0 => (0, st)
  | S k =>
      match loadMore_start st with
      | None => rapid_calls st k
      | Some st1 => let '(c, st') := rapid_calls st1 k in (S c, st')
      end
  end.

(** A valid choice vector for [n] elements: [[c_{n-1}; ...; c_0]] with
    [c_i <= i]. *)
Fixpoint choices_ok (n : nat) (cs : list nat) : Prop :=
  match n, cs with
  | 0, [] => True
  | S k, c :: cs' => c <= k ∧ choices_ok k cs'
  | _, _ => False
  end.

(* ------------------------------------------------------------------ *)
(** ** [calculateItemsPerPage] and the resize handler *)

(** [Math.ceil(screenHeight / cardEstimatedHeight)] with
    [cardEstimatedHeight = 600], for the integer [window.innerHeight]. *)
Definition cardsPerScreen (screenHeight : Z) : Z :=
  - ((- screenHeight) / 600).

(** [Math.floor(Math.max(6, Math.min(20, cardsPerScreen * 2.5)))].  The
    product [cardsPerScreen * 2.5] is a multiple of one half, so [items] is
    kept in halves: [Math.max(6, Math.min(20, x))] becomes
    [Z.max 12 (Z.min 40 (2 * x))], and [Math.floor] of a non-negative number
    of halves is that number divided by 2. *)
Definition calculateItemsPerPage (screenHeight : Z) : Z :=
  let items_halves := Z.max 12 (Z.min 40 (5 * cardsPerScreen screenHeight)) in
  items_halves / 2.

Definition set_itemsPerPage (n : nat) (st : MemeApp) : MemeApp :=
  mkApp (isLoading st) (hasMore st) (currentSubredditIndex st) (seenIds st)
    (failedAttempts st) n (feed st) (loadingActive st) (endShown st).

(** The debounced [resize] handler of [setup()], once it runs:
    [this.itemsPerPage = this.calculateItemsPerPage()]. *)
Definition on_resize (screenHeight : Z) (st : MemeApp) : MemeApp :=
  set_itemsPerPage (Z.to_nat (calculateItemsPerPage screenHeight)) st.

(* ------------------------------------------------------------------ *)
(** ** [escapeHtml] *)

(** A JavaScript string as its list of code points. *)
Definition codes (s : string) : list N :=
  map Ascii.N_of_ascii (String.list_ascii_of_string s).

(** [div.textContent = text] makes [text] the data of one text node;
    [div.innerHTML] serializes it, escaping the data of a text node (not in
    attribute mode) character by character: [&] becomes [&amp;], U+00A0
    becomes [&nbsp;], [<] becomes [&lt;], [>] becomes [&gt;]. *)
Definition escape_char (c : N) : list N :=
  if N.eqb c 38 then codes "&amp;"
  else if N.eqb c 160 then codes "&nbsp;"
  else if N.eqb c 60 then codes "&lt;"
  else if N.eqb c 62 then codes "&gt;"
  else [c].

(** [escapeHtml(text)]. *)
Definition escapeHtml (text : list N) : list N :=
  flat_map escape_char text.

(** Reading back the four character references [escapeHtml] writes, as the
    HTML parser decodes them in text. *)
Definition is_prefix (p s : list N) : bool :=
  bool_decide (take (length p) s = p).

Definition char_ref_at (s : list N) : option (N * list N) :=
  if is_prefix (codes "&amp;") s then Some (38%N, drop 5 s)
  else if is_prefix (codes "&nbsp;") s then Some (160%N, drop 6 s)
  else if is_prefix (codes "&lt;") s then Some (60%N, drop 4 s)
  else if is_prefix (codes "&gt;") s then Some (62%N, drop 4 s)
  else None.

Fixpoint decode_refs_fuel (fuel : nat) (s : list N) : list N :=
  match fuel with
  | 0 => []
  | S f =>
      match s with
      | [] => []
      | c :: rest =>
          match char_ref_at s with
          | Some (d, rest') => d :: decode_refs_fuel f rest'
          | None => c :: decode_refs_fuel f rest
          end
      end
  end.

Definition decode_refs (s : list N) : list N :=
  decode_refs_fuel (length s) s.

(* ------------------------------------------------------------------ *)
(** ** [debounce] *)

(** What happens to a debounced function: a call [executedFunction(...args)],
    or [wait] milliseconds passing with no call. *)
Inductive debounce_event (Arg : Type) :=
| DCall (args : Arg)
| DElapse.
Arguments DCall {Arg} args.
Arguments DElapse {Arg}.

(** [debounce(func, wait)]: [timeout] is the pending [later], with the
    arguments it closes over.  A call clears it and sets a new one; when
    [wait] passes, the pending [later] (if any) clears its own timer and
    runs [func(...args)].  Returns the arguments of each run of [func]. *)
Fixpoint debounce_run {Arg} (timeout : option Arg) (evs : list (debounce_event Arg))
  : list Arg :=
  match evs with
  | [] => []
  | DCall a :: evs' => debounce_run (Some a) evs'
  | DElapse :: evs' =>
      match timeout with
      | Some a => a :: debounce_run None evs'
      | None => debounce_run None evs'
      end
  end.

(** The arguments of the calls, in order. *)
Fixpoint call_args {Arg} (evs : list (debounce_event Arg)) : list Arg :=
  match evs with
  | [] => []
  | DCall a :: evs' => a :: call_args evs'
  | DElapse :: evs' => call_args evs'
  end.

(* ------------------------------------------------------------------ *)
(** ** The observer of [setupInfiniteScroll] *)

(** The [IntersectionObserver] callback: [entries.forEach(...)], each entry
    given by its [isIntersecting]; the guarded [this.loadMore()] runs up to
    its [await] before the next entry.  Returns the number of fetches
    started, and the state. *)
Fixpoint observer_callback (st : MemeApp) (entries : list bool) : nat * MemeApp :=
  match entries with
  | [] => (0, st)
  | e :: es =>
      if e && negb (isLoading st) && hasMore st then
        match loadMore_start st with
        | None => observer_callback st es
        | Some st1 => let '(c, st') := observer_callback st1 es in (S c, st')
        end
      else observer_callback st es
  end.

(* ------------------------------------------------------------------ *)
(** ** Theme events *)

(** After startup, the theme changes on a click of the toggle button or on
    a [change] of [(prefers-color-scheme: dark)]. *)
Inductive theme_event :=
| Toggle
| SystemChange (matchesDark : bool).

Definition theme_step (tm : ThemeManager) (ev : theme_event) : ThemeManager :=
  match ev with
  | Toggle => toggle tm
  | SystemChange d => on_system_change d tm
  end.

Fixpoint theme_run (tm : ThemeManager) (evs : list theme_event) : ThemeManager :=
  match evs with
  | [] => tm
  | ev :: evs' => theme_run (theme_step tm ev) evs'
  end.

Definition is_toggle (ev : theme_event) : bool :=
  match ev with Toggle => true | SystemChange _ => false end.

(* ------------------------------------------------------------------ *)
(** ** A session *)

(** What can happen to the [MemeApp] after [setup()]: a load, a reload
    ([reloadFeed()] or the reload button, then the rest of the
    [loadInitialMemes] it started), or the debounced resize handler. *)
Inductive session_op :=
| SLoad (l : load)
| SReload (results : list (option response)) (rs : list Z)
| SResize (screenHeight : Z).

Definition session_step (st : MemeApp) (op : session_op) : MemeApp :=
  match op with
  | SLoad l => fst (step st l)
  | SReload results rs => fst (loadInitial_finish (reloadFeed st) results rs)
  | SResize h => on_resize h st
  end.

Fixpoint session (st : MemeApp) (ops : list session_op) : MemeApp :=
  match ops with
  | [] => st
  | op :: ops' => session (session_step st op) ops'
  end.

(** The constructor and [setup()] on a window [screenHeight] pixels high. *)
Definition constructed_app (screenHeight : Z) : MemeApp :=
  initial_app (Z.to_nat (calculateItemsPerPage screenHeight)).

(** The spec's reading of a reload, for comparison with [reloadFeed]:
    every field of the session state back to its initial value ([isLoading]
    false, [hasMore] true, cursor 0, empty ledger, no failure), the end
    message hidden and the rendered items cleared.  [itemsPerPage] is
    derived from the viewport and [loadingActive] is the indicator's class,
    so both are kept. *)
Definition spec_session_reset (st : MemeApp) : MemeApp :=
  mkApp false true 0 ∅ 0 (itemsPerPage st) [] (loadingActive st) false.

(** The value of a double-quoted attribute, as the HTML tokenizer reads it
    from the text after the opening quote: everything up to the next double quote
    (code point 34). *)
Fixpoint take_until_quote (s : list N) : list N :=
  match s with
  | [] => []
  | c :: s' => if N.eqb c 34 then [] else c :: take_until_quote s'
  end.


(** The fields of a [ThemeManager] agree with what is saved. *)
Definition theme_consistent (tm : ThemeManager) : Prop :=
  data_theme tm = theme tm ∧ stored tm = Some (theme tm) ∧ theme tm ≠ EmptyString.

(* ================================================================== *)
(** * Properties *)

(** Sample records for the examples. *)
Definition sample_post (link : string) (adult : bool) : post :=
  mkPost link "t" "ProgrammerHumor" "u" 5 "a" adult.

Example shuffle_ex :
  shuffleArray [0%Z; (2 ^ 52)%Z; 0%Z] [1; 2; 3; 4] = [3; 4; 2; 1].
Proof. vm_compute. reflexivity. Qed.

Example parse_ex :
  fst (parse_loop {[ "b" ]} [sample_post "a" false; sample_post "b" false;
                             sample_post "c" true; sample_post "a" false])
  = [to_meme (sample_post "a" false)].
Proof. vm_compute. reflexivity. Qed.

Example loadMore_ex :
  let st := initial_app 8 in
  let '(st1, r1) := loadMore st None in
  let '(st2, r2) := loadMore st1 (Some (MemeList [])) in
  let '(st3, r3) := loadMore st2 (Some NoMemes) in
  (hasMore st2, hasMore st3, endShown st3, failedAttempts st3,
   currentSubredditIndex st3, isLoading st3) = (true, false, true, 3, 0, false).
Proof. vm_compute. reflexivity. Qed.

(* ------------------------------------------------------------------ *)
(** ** The ledger grows only with the ids handed out *)

Lemma fresh_render_nil s : fresh_render s s [].
Proof. split; [done | split; [constructor | set_solver]]. Qed.

Lemma fresh_render_app s1 s2 s3 r1 r2 :
  fresh_render s1 s2 r1 → fresh_render s2 s3 r2 → fresh_render s1 s3 (r1 ++ r2).
Proof.
  intros (Hs1 & Hn1 & Hm1) (Hs2 & Hn2 & Hm2).
  split; [set_solver |]. split.
  - rewrite fmap_app, NoDup_app. split; [done |]. split; [| done].
    intros x Hx1 Hx2.
    apply list_elem_of_fmap in Hx1 as (m1 & -> & Hm1').
    apply list_elem_of_fmap in Hx2 as (m2 & Heq & Hm2').
    destruct (Hm1 m1 Hm1') as [_ Hin]. destruct (Hm2 m2 Hm2') as [Hnot _].
    rewrite Heq in Hin. done.
  - intros m Hm. apply elem_of_app in Hm as [Hm | Hm].
    + destruct (Hm1 m Hm). set_solver.
    + destruct (Hm2 m Hm). set_solver.
Qed.

Lemma parse_loop_fresh s ps ms s' :
  parse_loop s ps = (ms, s') → fresh_render s s' ms.
Proof.
  revert s ms s'. induction ps as [| p ps IH]; intros s ms s' Hp; simpl in Hp.
  - inversion Hp; subst. apply fresh_render_nil.
  - destruct (decide (postLink p ∈ s)) as [Hin | Hnin]; [by apply IH |].
    destruct (nsfw p); [by apply IH |].
    destruct (parse_loop ({[postLink p]} ∪ s) ps) as [ms0 s0] eqn:E.
    inversion Hp; subst ms s0. clear Hp.
    destruct (IH _ _ _ E) as (Hs & Hn & Hm).
    split; [set_solver |]. split.
    + simpl. constructor; [| done].
      intros Hx. apply list_elem_of_fmap in Hx as (m & Heq & Hm').
      destruct (Hm m Hm') as [Hnot _]. simpl in Heq. set_solver.
    + intros m Hm'. apply elem_of_cons in Hm' as [-> | Hm'].
      * simpl. set_solver.
      * destruct (Hm m Hm'). set_solver.
Qed.

Lemma parseMemes_fresh s d ms s' :
  parseMemes s d = Some (ms, s') → fresh_render s s' ms.
Proof.
  destruct d as [| ps |]; simpl; intros H.
  - inversion H; subst. apply fresh_render_nil.
  - apply (parse_loop_fresh s ps). congruence.
  - discriminate.
Qed.

(* ------------------------------------------------------------------ *)
(** ** [swap] and [shuffleArray] permute *)

Section SwapFacts.
Context {A : Type}.
Implicit Types (a l : list A).

Lemma insert_perm l i x y :
  l !! i = Some y → y :: <[i:=x]> l ≡ₚ x :: l.
Proof.
  intros Hy. assert (Hi : i < length l) by (eapply lookup_lt_Some; eauto).
  rewrite <- (take_drop_middle l i y) at 2 by done.
  rewrite insert_take_drop by done.
  rewrite !Permutation_middle. apply Permutation_app_head, perm_swap.
Qed.

Lemma swap_perm a i j : swap a i j ≡ₚ a.
Proof.
  unfold swap.
  destruct (a !! i) as [x |] eqn:Hx; [| done].
  destruct (a !! j) as [y |] eqn:Hy; [| done].
  assert (Hi : i < length a) by (eapply lookup_lt_Some; eauto).
  assert (Hby : <[i:=y]> a !! j = Some y).
  { rewrite list_lookup_insert. case_decide; [by subst | done]. }
  apply (Permutation_cons_inv (a := y)).
  rewrite (insert_perm _ _ x y Hby).
  apply (insert_perm _ _ y x Hx).
Qed.

Lemma length_swap a i j : length (swap a i j) = length a.
Proof. apply Permutation_length, swap_perm. Qed.

Lemma shuffle_loop_perm i rs a : shuffle_loop i rs a ≡ₚ a.
Proof.
  revert rs a. induction i as [| k IH]; intros rs a; simpl; [done |].
  rewrite IH. apply swap_perm.
Qed.

Lemma shuffleArray_perm rs a : shuffleArray rs a ≡ₚ a.
Proof. apply shuffle_loop_perm. Qed.

End SwapFacts.

(* ------------------------------------------------------------------ *)
(** ** Each load hands out fresh ids *)

Lemma initial_loop_fresh st results acc st' all :
  initial_loop st results acc = inl (st', all) →
  ∃ fresh, all = acc ++ fresh ∧ fresh_render (seenIds st) (seenIds st') fresh.
Proof.
  revert st acc. induction results as [| [data |] rest IH]; intros st acc H;
    simpl in H.
  - inversion H; subst. exists []. rewrite app_nil_r. split; [done |].
    apply fresh_render_nil.
  - destruct (parseMemes (seenIds st) data) as [[memes s] |] eqn:Ep;
      [| discriminate].
    destruct (IH _ _ H) as (fr & -> & Hfr).
    exists (memes ++ fr). rewrite app_assoc. split; [done |].
    apply (fresh_render_app _ s); [exact (parseMemes_fresh _ _ _ _ Ep) | done].
  - by apply IH.
Qed.

Lemma initial_loop_reject_mono st results acc st' :
  initial_loop st results acc = inr st' → seenIds st ⊆ seenIds st'.
Proof.
  revert st acc. induction results as [| [data |] rest IH]; intros st acc H;
    simpl in H.
  - discriminate.
  - destruct (parseMemes (seenIds st) data) as [[memes s] |] eqn:Ep.
    + apply IH in H. simpl in H.
      destruct (parseMemes_fresh _ _ _ _ Ep) as [Hs _]. set_solver.
    + inversion H; subst. done.
  - by apply (IH st acc).
Qed.

Lemma loadInitialMemes_fresh st results rs st' r :
  loadInitialMemes st results rs = (st', r) →
  fresh_render (seenIds st) (seenIds st') r.
Proof.
  unfold loadInitialMemes, loadInitial_finish.
  destruct (initial_loop _ results []) as [[st1 all] | st1] eqn:E.
  - apply initial_loop_fresh in E as (fr & Hall & Hs & Hn & Hm).
    simpl in Hall. subst all. simpl in *.
    destruct fr as [| m0 fr0]; intros H; inversion H; subst; clear H.
    + simpl. split; [done | split; [constructor | set_solver]].
    + pose proof (shuffleArray_perm rs (m0 :: fr0)) as Hp.
      set (l := shuffleArray rs (m0 :: fr0)) in *.
      assert (Hsub : take (itemsPerPage st1) l `sublist_of` l)
        by apply sublist_take.
      simpl. split; [done |]. split.
      * rewrite fmap_take. eapply sublist_NoDup; [| apply sublist_take]. by rewrite Hp.
      * intros m Hm'. apply Hm. rewrite <- Hp. by eapply elem_of_sublist.
  - intros H. inversion H; subst.
    apply initial_loop_reject_mono in E. simpl in E.
    split; [done | split; [constructor | set_solver]].
Qed.

Lemma fresh_render_nil_sub s s' : s ⊆ s' → fresh_render s s' [].
Proof. intros Hs. split; [done | split; [constructor | set_solver]]. Qed.

Lemma loadMore_fresh st data st' r :
  loadMore st data = (st', r) → fresh_render (seenIds st) (seenIds st') r.
Proof.
  unfold loadMore, loadMore_start.
  destruct (isLoading st || negb (hasMore st)); intros H.
  { inversion H; subst. apply fresh_render_nil. }
  unfold loadMore_finish, loadMore_try in H. simpl in H.
  destruct data as [d |].
  - destruct (parseMemes (seenIds st) d) as [[memes s] |] eqn:Ep.
    + pose proof (parseMemes_fresh _ _ _ _ Ep) as Hf.
      destruct memes; case_decide; inversion H; subst; simpl;
        first [done | apply fresh_render_nil_sub; apply Hf].
    + inversion H; subst. apply fresh_render_nil.
  - case_decide; inversion H; subst; apply fresh_render_nil.
Qed.

Lemma step_fresh st l st' r :
  step st l = (st', r) → fresh_render (seenIds st) (seenIds st') r.
Proof.
  destruct l; simpl; [apply loadMore_fresh | apply loadInitialMemes_fresh].
Qed.

Lemma run_fresh st ls st' r :
  run st ls = (st', r) → fresh_render (seenIds st) (seenIds st') r.
Proof.
  revert st st' r. induction ls as [| l ls IH]; intros st st' r H; simpl in H.
  - inversion H; subst. apply fresh_render_nil.
  - destruct (step st l) as [st1 r1] eqn:E1.
    destruct (run st1 ls) as [st2 r2] eqn:E2.
    inversion H; subst.
    eapply fresh_render_app; [apply (step_fresh _ _ _ _ E1) | apply (IH _ _ _ E2)].
Qed.

(** [C1] Dedup invariant: over any sequence of loads of one session, the
    items handed to the feed have pairwise distinct ids, and none of them
    was in [seenIds] when the sequence started. *)
Theorem session_renders_distinct_ids (st : MemeApp) (ls : list load) :
  NoDup (id <$> snd (run st ls)) ∧
  ∀ m, m ∈ snd (run st ls) → id m ∉ seenIds st.
Proof.
  destruct (run st ls) as [st' r] eqn:E. simpl.
  destruct (run_fresh _ _ _ _ E) as (_ & Hn & Hm).
  split; [done |]. intros m Hm'. apply (Hm m Hm').
Qed.

(* ------------------------------------------------------------------ *)
(** ** Incremental loads *)

Lemma parse_loop_nil s ps s' : parse_loop s ps = ([], s') → s' = s.
Proof.
  revert s. induction ps as [| p ps IH]; intros s H; simpl in H.
  - congruence.
  - destruct (decide (postLink p ∈ s)); [by apply IH |].
    destruct (nsfw p); [by apply IH |].
    destruct (parse_loop _ ps). discriminate.
Qed.

Lemma parseMemes_nil s d s' : parseMemes s d = Some ([], s') → s' = s.
Proof.
  destruct d as [| ps |]; simpl; intros H; [congruence | | discriminate].
  apply (parse_loop_nil _ ps). congruence.
Qed.

(** An executed [loadMore] whose data is normalized to no item ends like one
    whose fetch returned [null]. *)
Lemma loadMore_zero_same st d s :
  parseMemes (seenIds st) d = Some ([], s) →
  loadMore st (Some d) = loadMore st None.
Proof.
  intros Hp. pose proof (parseMemes_nil _ _ _ Hp) as ->.
  unfold loadMore, loadMore_start.
  destruct (isLoading st || negb (hasMore st)); [done |].
  unfold loadMore_finish, loadMore_try. simpl. rewrite Hp. destruct st; done.
Qed.

(** The state after an executed [loadMore] whose fetch returned [null]. *)
Lemma loadMore_none st :
  isLoading st = false → hasMore st = true →
  fst (loadMore st None) =
    let f := S (failedAttempts st) in
    mkApp false (negb (bool_decide (maxFailedAttempts <= f)))
      ((currentSubredditIndex st + 1) mod length subreddits) (seenIds st) f
      (itemsPerPage st) (feed st) false
      (bool_decide (maxFailedAttempts <= f) || endShown st).
Proof.
  intros Hl Hm. cbv zeta.
  destruct (decide (maxFailedAttempts <= S (failedAttempts st))) as [H | H];
    [rewrite bool_decide_true by done | rewrite bool_decide_false by done];
    unfold loadMore, loadMore_start; rewrite Hl, Hm;
    unfold loadMore_finish, loadMore_try; simpl;
    [rewrite decide_True by done | rewrite decide_False by done]; destruct st; simpl in *; subst; reflexivity.
Qed.

(** [C2] Exhaustion threshold: from a state with no load in flight,
    [hasMore = true] and a zero failure streak, three executed incremental
    loads that each yield no item leave [hasMore = false] with the end
    message shown, and a fourth call of [loadMore] then issues no fetch and
    changes nothing. *)
Theorem three_empty_loads_exhaust (st : MemeApp) (d1 d2 d3 : option response) :
  isLoading st = false → hasMore st = true → failedAttempts st = 0 →
  zero_yield (seenIds st) d1 →
  zero_yield (seenIds (fst (loadMore st d1))) d2 →
  zero_yield (seenIds (fst (loadMore (fst (loadMore st d1)) d2))) d3 →
  let st3 := fst (loadMore (fst (loadMore (fst (loadMore st d1)) d2)) d3) in
  hasMore st3 = false ∧ endShown st3 = true ∧
  loadMore_start st3 = None ∧ ∀ d4, loadMore st3 d4 = (st3, []).
Proof.
  intros Hl Hm Hf Z1 Z2 Z3.
  assert (Hz : ∀ s d, zero_yield (seenIds s) d → loadMore s d = loadMore s None).
  { intros s d [-> | (d' & s' & -> & Hp)]; [done |].
    by apply (loadMore_zero_same _ _ s'). }
  rewrite (Hz _ _ Z1) in Z2, Z3 |- *. rewrite (Hz _ _ Z2) in Z3 |- *.
  rewrite (Hz _ _ Z3).
  rewrite (loadMore_none st) by done. rewrite Hf. cbv zeta.
  rewrite loadMore_none by reflexivity.
  rewrite loadMore_none by reflexivity.
  vm_compute. repeat split.
Qed.

Lemma rapid_calls_busy st n :
  (isLoading st = true ∨ hasMore st = false) → rapid_calls st n = (0, st).
Proof.
  intros Hg. induction n as [| n IH]; simpl; [done |].
  unfold loadMore_start.
  destruct Hg as [-> | ->]; simpl; [| rewrite orb_true_r]; apply IH.
Qed.

(** [C3] Guard: a call of [loadMore] while a load is in flight or the feed
    is exhausted issues no fetch, hands nothing to the feed and leaves the
    whole state unchanged; of any number [n >= 1] of calls made before the
    first fetch settles, exactly one issues a fetch when the guard lets the
    first through, and none otherwise. *)
Theorem loadMore_guard (st : MemeApp) :
  ((isLoading st = true ∨ hasMore st = false) →
     loadMore_start st = None ∧ ∀ data, loadMore st data = (st, [])) ∧
  ∀ n, 1 <= n →
     fst (rapid_calls st n) = if isLoading st || negb (hasMore st) then 0 else 1.
Proof.
  split.
  - intros Hg. unfold loadMore, loadMore_start.
    destruct Hg as [-> | ->]; simpl; [| rewrite orb_true_r]; split; done.
  - intros [| n] Hn; [lia |]. simpl. unfold loadMore_start.
    destruct (isLoading st || negb (hasMore st)) eqn:Hg.
    + rewrite rapid_calls_busy; [done |].
      destruct (isLoading st); [by left | right]. by destruct (hasMore st).
    + rewrite rapid_calls_busy by (left; done). done.
Qed.

(** [C7] Failure accounting of an executed incremental load: a fetch whose
    items are all filtered out ends exactly like a [null] fetch, which adds
    one to [failedAttempts]; a load with at least one item sets it to 0;
    in each case the category index moves to the next one modulo the number
    of categories. *)
Theorem loadMore_failure_accounting (st : MemeApp) :
  isLoading st = false → hasMore st = true →
  (∀ d s, parseMemes (seenIds st) d = Some ([], s) →
     loadMore st (Some d) = loadMore st None) ∧
  failedAttempts (fst (loadMore st None)) = S (failedAttempts st) ∧
  currentSubredditIndex (fst (loadMore st None)) =
    (currentSubredditIndex st + 1) mod length subreddits ∧
  (∀ d m ms s, parseMemes (seenIds st) d = Some (m :: ms, s) →
     failedAttempts (fst (loadMore st (Some d))) = 0 ∧
     currentSubredditIndex (fst (loadMore st (Some d))) =
       (currentSubredditIndex st + 1) mod length subreddits).
Proof.
  intros Hl Hm. split; [| split; [| split]].
  - intros d s Hp. by apply (loadMore_zero_same _ _ s).
  - by rewrite loadMore_none.
  - by rewrite loadMore_none.
  - intros d m ms s Hp.
    unfold loadMore, loadMore_start. rewrite Hl, Hm. simpl.
    unfold loadMore_finish, loadMore_try. simpl. rewrite Hp.
    rewrite decide_False by (simpl; unfold maxFailedAttempts; lia).
    done.
Qed.

(** [C10] Every call of [loadMore] that passes the guard ends, whatever its
    fetch settled with (no data, items, no item, exhaustion, or a thrown
    error caught by the [catch]), with [isLoading = false] and the loading
    indicator deactivated. *)
Theorem loadMore_always_clears_loading (st st1 : MemeApp) (data : option response) :
  loadMore_start st = Some st1 →
  loadMore st data = loadMore_finish st1 data ∧
  isLoading (fst (loadMore st data)) = false ∧
  loadingActive (fst (loadMore st data)) = false.
Proof.
  intros Hs. unfold loadMore. rewrite Hs.
  unfold loadMore_finish.
  destruct (loadMore_try st1 data) as [[s ms] | s]; done.
Qed.

(* ------------------------------------------------------------------ *)
(** ** Reload *)

(** [C4] [reloadFeed], from any state, is the spec's wholesale reset of the
    session state (all fields to their initial values, [isLoading] false
    included), followed by clearing the rendered items, the skeletons, and
    the immediate start of an initial load (which sets [isLoading]).  After
    it the ledger is empty, the cursor and [failedAttempts] are 0, [hasMore]
    is true, the end message is hidden, and an id seen before is fresh
    again. *)
Theorem reloadFeed_resets (st : MemeApp) :
  reloadFeed st = loadInitial_start (showSkeletons (itemsPerPage st) (spec_session_reset st)) ∧
  let st' := reloadFeed st in
  seenIds st' = ∅ ∧ currentSubredditIndex st' = 0 ∧ failedAttempts st' = 0 ∧
  hasMore st' = true ∧ endShown st' = false ∧
  feed st' = replicate (itemsPerPage st) Skeleton ∧
  itemsPerPage st' = itemsPerPage st ∧ isLoading st' = true ∧
  ∀ p, nsfw p = false → fst (parse_loop (seenIds st') [p]) = [to_meme p].
Proof.
  split; [by destruct st |].
  cbv zeta. repeat split.
  intros p Hp. simpl. rewrite decide_False by set_solver. by rewrite Hp.
Qed.

(* ------------------------------------------------------------------ *)
(** ** Initial load with no item *)

(** [C5] When the items gathered by the initial load are none at all, the
    feed becomes the error box (message and "Try Again" button), nothing is
    handed to the feed, [isLoading] drops, and neither [hasMore] nor the
    end message is touched: the feed is not exhausted. *)
Theorem initial_empty_shows_error (st st1 : MemeApp)
    (results : list (option response)) (rs : list Z) :
  hasMore st = true →
  initial_loop (loadInitial_start st) results [] = inl (st1, []) →
  let '(st', r) := loadInitialMemes st results rs in
  r = [] ∧ feed st' = [ErrorBox no_memes_message] ∧ isLoading st' = false ∧
  hasMore st' = true ∧ endShown st' = endShown st.
Proof.
  intros Hm E. unfold loadInitialMemes, loadInitial_finish. rewrite E. simpl.
  assert (Hk : ∀ acc st0 st2 all,
    initial_loop st0 results acc = inl (st2, all) →
    hasMore st2 = hasMore st0 ∧ endShown st2 = endShown st0).
  { clear. induction results as [| [data |] rest IH]; intros acc st0 st2 all H;
      simpl in H.
    - by inversion H.
    - destruct (parseMemes (seenIds st0) data) as [[memes s] |]; [| discriminate].
      apply IH in H. done.
    - by apply (IH acc st0 st2 all). }
  destruct (Hk _ _ _ _ E) as [H1 H2]. simpl in H1, H2.
  repeat split; congruence.
Qed.

(* ------------------------------------------------------------------ *)
(** ** [parseMemes] is a filter *)

Lemma parse_loop_sublist s ps :
  ∃ ks, ks `sublist_of` ps ∧ fst (parse_loop s ps) = to_meme <$> ks ∧
    Forall (λ k, nsfw k = false ∧ postLink k ∉ s) ks ∧
    snd (parse_loop s ps) = s ∪ list_to_set (postLink <$> ks).
Proof.
  revert s. induction ps as [| p ps IH]; intros s; simpl.
  - exists []. repeat split; [constructor | constructor | set_solver].
  - destruct (decide (postLink p ∈ s)) as [Hin | Hnin].
    + destruct (IH s) as (ks & Hs & Hf & Hk & Hl).
      exists ks. repeat split; [by constructor | done | done | done].
    + destruct (nsfw p) eqn:Hn.
      * destruct (IH s) as (ks & Hs & Hf & Hk & Hl).
        exists ks. repeat split; [by constructor | done | done | done].
      * destruct (IH ({[postLink p]} ∪ s)) as (ks & Hs & Hf & Hk & Hl).
        destruct (parse_loop ({[postLink p]} ∪ s) ps) as [ms s'] eqn:E.
        simpl in *. exists (p :: ks). split; [by constructor |].
        split; [by rewrite Hf |]. split.
        -- constructor; [done |]. eapply Forall_impl; [exact Hk |].
           intros k [? ?]. split; [done | set_solver].
        -- rewrite Hl. simpl. set_solver.
Qed.

(** [C6] [parseMemes] on an array of records: an NSFW record yields no item
    whatever the ledger holds, a record whose [postLink] is in the ledger
    yields no item, any other record adds its [postLink] to the ledger and
    yields one item; the items come from a subsequence of the records, in
    their order, and the ledger grows by exactly their ids. *)
Theorem parseMemes_is_filter (seen : gset string) (ps : list post) :
  parseMemes seen (MemeList ps) = Some (parse_loop seen ps) ∧
  (∀ p ps' s, nsfw p = true → parse_loop s (p :: ps') = parse_loop s ps') ∧
  (∀ p ps' s, postLink p ∈ s → parse_loop s (p :: ps') = parse_loop s ps') ∧
  (∀ p ps' s, nsfw p = false → postLink p ∉ s →
     parse_loop s (p :: ps') =
       let '(ms, s') := parse_loop ({[postLink p]} ∪ s) ps' in (to_meme p :: ms, s')) ∧
  ∃ ks, ks `sublist_of` ps ∧ fst (parse_loop seen ps) = to_meme <$> ks ∧
    Forall (λ k, nsfw k = false ∧ postLink k ∉ seen) ks ∧
    snd (parse_loop seen ps) = seen ∪ list_to_set (postLink <$> ks).
Proof.
  split; [done |]. split; [| split; [| split]].
  - intros p ps' s Hn. simpl. case_decide; [done |]. by rewrite Hn.
  - intros p ps' s Hin. simpl. by rewrite decide_True.
  - intros p ps' s Hn Hnin. simpl. rewrite decide_False by done. by rewrite Hn.
  - apply parse_loop_sublist.
Qed.

(* ------------------------------------------------------------------ *)
(** ** The theme store *)

(** [C9] With nothing stored and the OS preferring light at startup, the
    constructor persists ["light"]; a later change of the OS to dark, the
    user never having toggled, leaves the theme at ["light"]: the listener
    finds the key that [applyTheme] wrote at startup. *)
Theorem system_change_ignored_after_startup :
  let tm := theme_startup None true in
  stored tm = Some "light"%string ∧
  theme (on_system_change true tm) = "light"%string ∧
  os_theme true = "dark"%string.
Proof. vm_compute. repeat split. Qed.

(** The listener never replaces a stored (truthy) theme. *)
Lemma system_change_keeps_stored (tm : ThemeManager) (matchesDark : bool) :
  stored_truthy (stored tm) = true → on_system_change matchesDark tm = tm.
Proof. intros H. unfold on_system_change. by rewrite H. Qed.

(* ------------------------------------------------------------------ *)
(** ** [shuffleArray] is Fisher–Yates *)

Section FisherYatesFacts.
Context {A : Type}.
Implicit Types (a l m : list A).

Lemma swap_same a i : swap a i i = a.
Proof.
  unfold swap. destruct (a !! i) as [x |] eqn:Hx; [| done].
  rewrite list_insert_insert_eq. by apply list_insert_id.
Qed.

Lemma fy_from_perm i cs a : fy_from i cs a ≡ₚ a.
Proof.
  revert cs a. induction i as [| k IH]; intros cs a; simpl; [apply swap_perm |].
  rewrite IH. apply swap_perm.
Qed.

Lemma fisher_yates_perm cs a : fisher_yates cs a ≡ₚ a.
Proof. unfold fisher_yates. destruct (length a); [done | apply fy_from_perm]. Qed.

Lemma fisher_yates_len cs a n : length a = S n → fisher_yates cs a = fy_from n cs a.
Proof. intros H. unfold fisher_yates. by rewrite H. Qed.

Lemma shuffle_loop_refines i rs a :
  shuffle_loop i rs a = fy_from i (draw_choices i rs) a.
Proof.
  revert rs a. induction i as [| k IH]; intros rs a; simpl.
  - by rewrite swap_same.
  - apply IH.
Qed.

Lemma shuffleArray_refines rs a :
  shuffleArray rs a = fisher_yates (choices_of rs (length a)) a.
Proof.
  unfold shuffleArray, fisher_yates, choices_of.
  destruct (length a) as [| n]; simpl; [done |].
  rewrite Nat.sub_0_r. apply shuffle_loop_refines.
Qed.

Lemma swap_app_l m s i j :
  i < length m → j < length m → swap (m ++ s) i j = swap m i j ++ s.
Proof.
  intros Hi Hj. unfold swap. rewrite !lookup_app_l by done.
  destruct (lookup_lt_is_Some_2 m i Hi) as [x Hx].
  destruct (lookup_lt_is_Some_2 m j Hj) as [y Hy].
  rewrite Hx, Hy. rewrite insert_app_l by done.
  rewrite insert_app_l by (rewrite length_insert; done). done.
Qed.

Lemma fy_from_app i cs m s :
  S i <= length m → choices_ok (S i) cs → fy_from i cs (m ++ s) = fy_from i cs m ++ s.
Proof.
  revert cs m. induction i as [| k IH]; intros cs m Hl Hc.
  - destruct cs as [| c cs]; [done |]. destruct Hc as [Hc _]. simpl.
    apply swap_app_l; lia.
  - destruct cs as [| c cs]; [done |]. destruct Hc as [Hc Hc']. simpl.
    rewrite swap_app_l by lia. apply IH; [rewrite length_swap; lia | done].
Qed.

Lemma swap_last l z k c x :
  length l = k → c <= k → (l ++ [z]) !! c = Some x →
  ∃ l', swap (l ++ [z]) k c = l' ++ [x] ∧ length l' = k.
Proof.
  intros Hl Hc Hx.
  destruct (decide (c = k)) as [-> | Hne].
  - exists l. rewrite swap_same. split; [| done].
    rewrite lookup_app_r in Hx by lia. rewrite Hl, Nat.sub_diag in Hx.
    simpl in Hx. congruence.
  - exists (<[c:=z]> l). split; [| by rewrite length_insert].
    unfold swap. rewrite Hx.
    rewrite lookup_app_r by lia. rewrite Hl, Nat.sub_diag. simpl.
    rewrite <- Hl, <- (Nat.add_0_r (length l)), insert_app_r. simpl.
    rewrite insert_app_l by lia. done.
Qed.

Lemma fisher_yates_snoc l z k c cs l' x :
  length l = k → swap (l ++ [z]) k c = l' ++ [x] → length l' = k →
  choices_ok k cs →
  fisher_yates (c :: cs) (l ++ [z]) = fisher_yates cs l' ++ [x].
Proof.
  intros Hl Hs Hl' Hc.
  rewrite (fisher_yates_len _ _ k) by (rewrite length_app; simpl; lia).
  destruct k as [| k].
  - simpl. rewrite Hs. destruct l'; [done | simpl in Hl'; lia].
  - simpl. rewrite Hs. rewrite fy_from_app by (lia || done).
    by rewrite (fisher_yates_len _ _ k).
Qed.

Lemma swap_fmap {B} (f : A → B) a i j : swap (f <$> a) i j = f <$> swap a i j.
Proof.
  unfold swap. rewrite !list_lookup_fmap.
  destruct (a !! i), (a !! j); simpl; [| done | done | done].
  by rewrite !list_fmap_insert.
Qed.

Lemma fisher_yates_fmap {B} (f : A → B) cs a :
  fisher_yates cs (f <$> a) = f <$> fisher_yates cs a.
Proof.
  unfold fisher_yates. rewrite length_fmap.
  destruct (length a) as [| n]; [done |].
  revert cs a. induction n as [| k IH]; intros cs a; simpl.
  - apply swap_fmap.
  - rewrite swap_fmap. apply IH.
Qed.

End FisherYatesFacts.

Lemma choice_space_ok n cs : In cs (choice_space n) ↔ choices_ok n cs.
Proof.
  revert cs. induction n as [| k IH]; intros cs; cbn [choice_space].
  - destruct cs; simpl; split; intros H; try done; try (left; done).
    destruct H as [H | []]; discriminate.
  - rewrite in_flat_map. split.
    + intros (c & Hc & Hm). apply in_map_iff in Hm as (r & <- & Hr).
      apply in_seq in Hc. split; [lia | by apply IH].
    + destruct cs as [| c r]; [done |]. intros [Hc Hr].
      exists c. split; [apply in_seq; lia |].
      apply in_map_iff. exists r. split; [done | by apply IH].
Qed.

Lemma choice_space_length n : length (choice_space n) = fact n.
Proof.
  induction n as [| k IH]; cbn [choice_space]; [done |].
  assert (Hg : ∀ l, length (flat_map (λ c, map (cons c) (choice_space k)) l)
                   = length l * fact k).
  { induction l as [| c l IHl]; simpl; [done |].
    rewrite length_app, length_map, IHl, IH. lia. }
  rewrite Hg, length_seq. reflexivity.
Qed.

Lemma NoDup_map_cons (c : nat) (X : list (list nat)) :
  NoDup X → NoDup (map (cons c) X).
Proof.
  induction X as [| y X IH]; intros Hx; simpl; [constructor |].
  apply NoDup_cons in Hx as [Hy Hx]. apply NoDup_cons. split; [| by apply IH].
  intros H. apply list_elem_of_In, in_map_iff in H as (y' & Heq & Hy').
  injection Heq as ->. apply Hy. by apply list_elem_of_In.
Qed.

Lemma choice_space_NoDup n : NoDup (choice_space n).
Proof.
  induction n as [| k IH]; cbn [choice_space]; [repeat constructor; set_solver |].
  assert (Hg : ∀ l, NoDup l → NoDup (flat_map (λ c, map (cons c) (choice_space k)) l)).
  { induction l as [| c l IHl]; intros Hl; simpl; [constructor |].
    apply NoDup_cons in Hl as [Hc Hl].
    apply NoDup_app. split; [| split; [| by apply IHl]].
    - by apply NoDup_map_cons.
    - intros x Hx Hx'. apply list_elem_of_In in Hx, Hx'.
      apply in_map_iff in Hx as (r & <- & _).
      apply in_flat_map in Hx' as (c' & Hc' & Hm).
      apply in_map_iff in Hm as (r' & Heq & _). injection Heq as ->.
      apply Hc. by apply list_elem_of_In. }
  apply Hg. apply NoDup_seq.
Qed.

Lemma random_index_le r i :
  (0 <= r < random_denominator)%Z → random_index r i <= i.
Proof.
  intros Hr. unfold random_index.
  assert (Hd : (0 < random_denominator)%Z) by (unfold random_denominator; lia).
  assert (Hlt : (r * (Z.of_nat i + 1) / random_denominator < Z.of_nat i + 1)%Z).
  { apply Z.div_lt_upper_bound; [done | nia]. }
  assert (H0 : (0 <= r * (Z.of_nat i + 1) / random_denominator)%Z).
  { apply Z.div_pos; [nia | done]. }
  lia.
Qed.

Lemma draw_choices_ok k rs :
  Forall (λ r, 0 <= r < random_denominator)%Z rs →
  choices_ok (S k) (draw_choices k rs).
Proof.
  revert rs. induction k as [| k IH]; intros rs Hrs; simpl.
  - split; [lia | done].
  - split.
    + apply random_index_le. destruct rs as [| r rs]; simpl.
      * unfold random_denominator. lia.
      * by inversion Hrs.
    + apply IH. destruct rs; simpl; [constructor | by inversion Hrs].
Qed.

Lemma fisher_yates_unique_choice {A : Type} (n : nat) (a : list A) :
  length a = n → NoDup a → ∀ p, p ≡ₚ a →
  exists! cs, In cs (choice_space n) ∧ fisher_yates cs a = p.
Proof.
  revert a. induction n as [| k IH]; intros a Hl Hnd p Hp.
  - destruct a; [| discriminate].
    symmetry in Hp. apply Permutation_nil in Hp as ->.
    exists []. split; [split; [by left | done] |].
    intros cs [Hin _]. destruct Hin as [<- | []]. done.
  - destruct (exists_last (l := a)) as (l & z & ->); [by intros -> |].
    destruct (exists_last (l := p)) as (q & w & ->);
      [intros ->; apply Permutation_length in Hp; simpl in Hp; lia |].
    rewrite length_app in Hl. simpl in Hl.
    assert (Hlk : length l = k) by lia.
    assert (Hw : w ∈ l ++ [z]) by (rewrite <- Hp; set_solver).
    apply list_elem_of_lookup in Hw as [c Hc].
    assert (Hck : c <= k).
    { apply lookup_lt_Some in Hc. rewrite length_app in Hc. simpl in Hc. lia. }
    destruct (swap_last l z k c w Hlk Hck Hc) as (l' & Hs & Hl').
    assert (Hperm : l' ++ [w] ≡ₚ l ++ [z]) by (rewrite <- Hs; apply swap_perm).
    assert (Hq : l' ≡ₚ q).
    { apply (Permutation_app_inv_r [w]). by rewrite Hperm. }
    assert (Hnd' : NoDup l').
    { assert (Hn2 : NoDup (l' ++ [w])) by by rewrite Hperm.
      apply NoDup_app in Hn2. tauto. }
    destruct (IH l' Hl' Hnd' q (symmetry Hq)) as (cs & [Hin Hfy] & Huniq).
    apply choice_space_ok in Hin.
    exists (c :: cs). split.
    + split; [apply choice_space_ok; simpl; split; done |].
      rewrite (fisher_yates_snoc l z k c cs l' w) by done. by rewrite Hfy.
    + intros cs2 [Hin2 Hfy2]. apply choice_space_ok in Hin2.
      destruct cs2 as [| c2 r2]; [done |]. destruct Hin2 as [Hc2 Hr2].
      destruct (lookup_lt_is_Some_2 (l ++ [z]) c2) as [x2 Hx2];
        [rewrite length_app; simpl; lia |].
      destruct (swap_last l z k c2 x2 Hlk Hc2 Hx2) as (l2 & Hs2 & Hl2).
      rewrite (fisher_yates_snoc l z k c2 r2 l2 x2) in Hfy2 by done.
      apply app_inj_tail in Hfy2 as [Hq2 ->].
      assert (c2 = c) as -> by (apply (NoDup_lookup (l ++ [z]) c2 c w); done).
      rewrite Hs in Hs2. apply app_inj_tail in Hs2 as [<- _].
      f_equal. apply Huniq. split; [by apply choice_space_ok | done].
Qed.

(** Every index in [[0, i]] is [Math.floor(Math.random() * (i + 1))] for
    some draw. *)
Lemma random_index_reach c i :
  c <= i → (Z.of_nat i < random_denominator)%Z →
  ∃ r, (0 <= r < random_denominator)%Z ∧ random_index r i = c.
Proof.
  intros Hc Hi. set (D := random_denominator) in *.
  assert (HD : (0 < D)%Z) by (subst D; unfold random_denominator; lia).
  set (m := (Z.of_nat i + 1)%Z).
  assert (Hm : (0 < m)%Z) by (subst m; lia).
  set (r := ((Z.of_nat c * D + Z.of_nat i) / m)%Z).
  pose proof (Z.div_mod (Z.of_nat c * D + Z.of_nat i) m ltac:(lia)) as Hdm.
  pose proof (Z.mod_pos_bound (Z.of_nat c * D + Z.of_nat i) m Hm) as Hb.
  fold r in Hdm.
  set (rem := ((Z.of_nat c * D + Z.of_nat i) mod m)%Z) in *.
  assert (Hlo : (Z.of_nat c * D <= m * r)%Z) by (subst m; lia).
  assert (Hhi : (m * r < (Z.of_nat c + 1) * D)%Z) by (subst m; lia).
  exists r. split; [split |].
  - nia.
  - assert (Hci : (Z.of_nat c + 1 <= m)%Z) by (subst m; lia). nia.
  - unfold random_index. fold D. fold m.
    rewrite <- (Z.div_unique_pos (r * m) D (Z.of_nat c) (r * m - Z.of_nat c * D));
      [lia | lia | lia].
Qed.

Lemma draw_choices_reach k cs :
  choices_ok (S k) cs → (Z.of_nat k < random_denominator)%Z →
  ∃ rs, Forall (λ r, 0 <= r < random_denominator)%Z rs ∧ draw_choices k rs = cs.
Proof.
  revert cs. induction k as [| k IH]; intros cs Hc Hk.
  - destruct cs as [| c [| c' cs]]; simpl in Hc; [done | | tauto].
    exists []. split; [constructor |]. simpl. f_equal. lia.
  - destruct cs as [| c cs]; [done |]. destruct Hc as [Hc Hcs].
    destruct (random_index_reach c (S k) Hc Hk) as (r & Hr & Hri).
    destruct (IH cs Hcs ltac:(lia)) as (rs & Hrs & Hd).
    exists (r :: rs). split; [by constructor |]. simpl. by rewrite Hri, Hd.
Qed.

(** [C8] [shuffleArray] is the Fisher–Yates shuffle: with draws of
    [Math.random()] it performs the reference algorithm's swaps (for [i]
    from last to first, with an index in [[0, i]]), using a valid choice
    vector, and every valid choice vector is made by some draws.  It
    permutes its input.  The valid choice vectors are [n!] distinct
    vectors (each of probability [1 / n!] when the choices are independent
    and uniform), and for an input of distinct elements every permutation
    comes from exactly one of them; the shuffle commutes with [map], so on
    any input every permutation of the positions is equally likely. *)
Theorem shuffleArray_uniform_fisher_yates {A B : Type} :
  (∀ (rs : list Z) (a : list A),
     Forall (λ r, 0 <= r < random_denominator)%Z rs →
     shuffleArray rs a = fisher_yates (choices_of rs (length a)) a ∧
     In (choices_of rs (length a)) (choice_space (length a))) ∧
  (∀ (a : list A) (cs : list nat),
     In cs (choice_space (length a)) →
     (Z.of_nat (length a) <= random_denominator)%Z →
     ∃ rs, Forall (λ r, 0 <= r < random_denominator)%Z rs ∧
       shuffleArray rs a = fisher_yates cs a) ∧
  (∀ (rs : list Z) (a : list A), shuffleArray rs a ≡ₚ a) ∧
  (∀ n, length (choice_space n) = fact n ∧ NoDup (choice_space n)) ∧
  (∀ a : list A, NoDup a → ∀ p, p ≡ₚ a →
     exists! cs, In cs (choice_space (length a)) ∧ fisher_yates cs a = p) ∧
  (∀ (f : A → B) (cs : list nat) (a : list A),
     fisher_yates cs (f <$> a) = f <$> fisher_yates cs a).
Proof.
  split; [| split; [| split; [| split; [| split]]]].
  - intros rs a Hrs. split; [apply shuffleArray_refines |].
    apply choice_space_ok. unfold choices_of.
    destruct (length a) as [| n]; [done |]. by apply draw_choices_ok.
  - intros a cs Hin Hlen. apply choice_space_ok in Hin.
    destruct (length a) as [| n] eqn:Hl.
    + exists []. split; [constructor |].
      rewrite shuffleArray_refines, Hl. destruct cs; [done | contradiction].
    + destruct (draw_choices_reach n cs Hin ltac:(lia)) as (rs & Hrs & Hd).
      exists rs. split; [done |]. by rewrite shuffleArray_refines, Hl; simpl; rewrite Hd.
  - apply shuffleArray_perm.
  - intros n. split; [apply choice_space_length | apply choice_space_NoDup].
  - intros a Hnd p Hp. by apply fisher_yates_unique_choice.
  - apply fisher_yates_fmap.
Qed.

(* ================================================================== *)
(** * Further properties of the code *)

(* ------------------------------------------------------------------ *)
(** ** [calculateItemsPerPage] *)

Section ItemsPerPage.
Local Open Scope Z_scope.

Lemma calculateItems_bounds (h : Z) : 6 <= calculateItemsPerPage h <= 20.
Proof.
  unfold calculateItemsPerPage.
  set (m := Z.max 12 (Z.min 40 (5 * cardsPerScreen h))).
  pose proof (Z.div_mod m 2 ltac:(lia)). pose proof (Z.mod_pos_bound m 2 ltac:(lia)).
  assert (12 <= m <= 40) by (unfold m; lia). lia.
Qed.

Lemma cardsPerScreen_mono (h1 h2 : Z) : h1 <= h2 -> cardsPerScreen h1 <= cardsPerScreen h2.
Proof.
  unfold cardsPerScreen. intros H.
  pose proof (Z.div_le_mono (- h2) (- h1) 600 ltac:(lia) ltac:(lia)). lia.
Qed.

(** X1: for every window height the page size is between 6 and 20; it is 6
    for windows up to 1200 px high and 20 above 4200 px. *)
Lemma calculateItemsPerPage_range (h : Z) :
  6 <= calculateItemsPerPage h <= 20 ∧
  (h <= 1200 -> calculateItemsPerPage h = 6) ∧
  (4200 < h -> calculateItemsPerPage h = 20).
Proof.
  split; [apply calculateItems_bounds |].
  unfold calculateItemsPerPage, cardsPerScreen. split; intros H.
  - assert (- h / 600 >= -2). { apply Z.le_ge, Z.div_le_lower_bound; lia. }
    rewrite Z.max_l by lia. reflexivity.
  - assert (- h / 600 < -7). { apply Z.div_lt_upper_bound; lia. }
    rewrite Z.min_l by lia. reflexivity.
Qed.

(** X2: a taller window never gives a smaller page size. *)
Lemma calculateItemsPerPage_monotone (h1 h2 : Z) :
  h1 <= h2 -> calculateItemsPerPage h1 <= calculateItemsPerPage h2.
Proof.
  unfold calculateItemsPerPage. intros H. apply cardsPerScreen_mono in H.
  apply Z.div_le_mono; lia.
Qed.

End ItemsPerPage.

(* ------------------------------------------------------------------ *)
(** ** What a session keeps *)

Lemma loadMore_fields st d :
  let st' := fst (loadMore st d) in
  itemsPerPage st' = itemsPerPage st ∧
  (currentSubredditIndex st' = currentSubredditIndex st ∨
   currentSubredditIndex st' = (currentSubredditIndex st + 1) mod length subreddits) ∧
  ((hasMore st' = hasMore st ∧ endShown st' = endShown st) ∨
   (hasMore st' = false ∧ endShown st' = true)).
Proof.
  unfold loadMore, loadMore_start.
  destruct (isLoading st || negb (hasMore st)); simpl; [auto |].
  unfold loadMore_finish, loadMore_try.
  destruct d as [d |];
    [destruct (parseMemes (seenIds _) d) as [[[| m ms] s] |] |]; simpl;
    try (case_decide; simpl); auto.
Qed.

Lemma initial_loop_set st results acc :
  match initial_loop st results acc with
  | inl (st', _) => st' = set_seenIds (seenIds st') st
  | inr st' => st' = set_seenIds (seenIds st') st
  end.
Proof.
  revert st acc. induction results as [| [data |] rest IH]; intros st acc; simpl.
  - by destruct st.
  - destruct (parseMemes (seenIds st) data) as [[memes s] |]; [| by destruct st].
    specialize (IH (set_seenIds s st) (acc ++ memes)).
    destruct (initial_loop _ rest _) as [[st' all] | st']; rewrite IH at 1; by destruct st.
  - apply IH.
Qed.

Lemma loadInitial_finish_fields st results rs :
  let st' := fst (loadInitial_finish st results rs) in
  itemsPerPage st' = itemsPerPage st ∧ currentSubredditIndex st' = currentSubredditIndex st ∧
  hasMore st' = hasMore st ∧ endShown st' = endShown st.
Proof.
  unfold loadInitial_finish. pose proof (initial_loop_set st results []) as H.
  destruct (initial_loop st results []) as [[st1 all] | st1]; rewrite H; simpl;
    [destruct all |]; simpl; auto.
Qed.

Lemma session_step_fields st op :
  let st' := session_step st op in
  (itemsPerPage st' = itemsPerPage st ∨
   ∃ h, itemsPerPage st' = Z.to_nat (calculateItemsPerPage h)) ∧
  (currentSubredditIndex st' = currentSubredditIndex st ∨
   currentSubredditIndex st' = (currentSubredditIndex st + 1) mod length subreddits ∨
   currentSubredditIndex st' = 0) ∧
  ((hasMore st' = hasMore st ∧ endShown st' = endShown st) ∨
   (hasMore st' = false ∧ endShown st' = true) ∨
   (hasMore st' = true ∧ endShown st' = false)).
Proof.
  destruct op as [[data | results rs] | results rs | h]; simpl.
  - destruct (loadMore_fields st data) as (H1 & H2 & H3). tauto.
  - unfold loadInitialMemes.
    destruct (loadInitial_finish_fields (loadInitial_start st) results rs) as (H1 & H2 & H3 & H4).
    simpl in *. rewrite H1, H2, H3, H4. tauto.
  - destruct (loadInitial_finish_fields (reloadFeed st) results rs) as (H1 & H2 & H3 & H4).
    rewrite H1, H2, H3, H4. simpl. tauto.
  - unfold on_resize, set_itemsPerPage. simpl. split; [right; eauto |]. tauto.
Qed.

(** X3: in a session started by the constructor, through any loads,
    reloads and resizes, [itemsPerPage] stays between 6 and 20, so every
    [loadMore] fetch asks for 6 to 20 memes. *)
Theorem session_page_size (h : Z) (ops : list session_op) :
  let st := session (constructed_app h) ops in
  6 <= itemsPerPage st <= 20 ∧ 6 <= snd (loadMore_request st) <= 20.
Proof.
  assert (∀ h', 6 <= Z.to_nat (calculateItemsPerPage h') <= 20) as Hb.
  { intros h'. pose proof (calculateItems_bounds h'). lia. }
  simpl. cut (6 <= itemsPerPage (session (constructed_app h) ops) <= 20); [done |].
  generalize (constructed_app h) (Hb h : 6 <= itemsPerPage (constructed_app h) <= 20).
  induction ops as [| op ops IH]; intros st Hst; simpl; [done |].
  apply IH. destruct (session_step_fields st op) as ([-> | [h' ->]] & _); auto.
Qed.

(** X4: in a session started by the constructor, [currentSubredditIndex]
    always indexes [subreddits], so [loadMore] never fetches an undefined
    category. *)
Theorem session_cursor_in_range (h : Z) (ops : list session_op) :
  let st := session (constructed_app h) ops in
  currentSubredditIndex st < length subreddits ∧ is_Some (fst (loadMore_request st)).
Proof.
  assert (∀ st, currentSubredditIndex st < length subreddits →
            currentSubredditIndex (session st ops) < length subreddits) as Hinv.
  { induction ops as [| op ops IH]; intros st Hst; simpl; [done |].
    apply IH. destruct (session_step_fields st op) as (_ & H & _).
    destruct H as [-> | [-> | ->]]; [done | apply Nat.mod_upper_bound; done | simpl; lia]. }
  simpl. pose proof (Hinv (constructed_app h) ltac:(simpl; lia)) as H.
  split; [exact H |]. unfold loadMore_request. simpl. by apply lookup_lt_is_Some_2.
Qed.

(** X5: in a session started by the constructor, the end message is shown
    exactly when [hasMore] is false. *)
Theorem session_end_message (h : Z) (ops : list session_op) :
  let st := session (constructed_app h) ops in endShown st = negb (hasMore st).
Proof.
  simpl.
  generalize (constructed_app h)
    (eq_refl : endShown (constructed_app h) = negb (hasMore (constructed_app h))).
  induction ops as [| op ops IH]; intros st Hst; simpl; [done |].
  apply IH. destruct (session_step_fields st op) as (_ & _ & H).
  destruct H as [[-> ->] | [[-> ->] | [-> ->]]]; done.
Qed.

(* ------------------------------------------------------------------ *)
(** ** [escapeHtml] *)

Lemma escapeHtml_cons c s : escapeHtml (c :: s) = escape_char c ++ escapeHtml s.
Proof. reflexivity. Qed.

Lemma escape_char_no_angle c : (60%N ∉ escape_char c) ∧ (62%N ∉ escape_char c).
Proof.
  unfold escape_char.
  destruct (N.eqb_spec c 38); [split; apply (bool_decide_unpack _); vm_compute; reflexivity |].
  destruct (N.eqb_spec c 160); [split; apply (bool_decide_unpack _); vm_compute; reflexivity |].
  destruct (N.eqb_spec c 60); [split; apply (bool_decide_unpack _); vm_compute; reflexivity |].
  destruct (N.eqb_spec c 62); [split; apply (bool_decide_unpack _); vm_compute; reflexivity |].
  split; rewrite list_elem_of_singleton; congruence.
Qed.

(** X6: the output of [escapeHtml] never contains [<] or [>], whatever the
    text, so a title or source cannot open or close a tag in the card. *)
Theorem escapeHtml_no_angle_brackets (s : list N) :
  (60%N ∉ escapeHtml s) ∧ (62%N ∉ escapeHtml s).
Proof.
  induction s as [| c s IH]; [split; apply not_elem_of_nil |].
  rewrite escapeHtml_cons, !elem_of_app. pose proof (escape_char_no_angle c). tauto.
Qed.

Lemma is_prefix_app p s : is_prefix p (p ++ s) = true.
Proof. unfold is_prefix. rewrite take_app_length. by apply bool_decide_eq_true_2. Qed.

Lemma is_prefix_head p s c : head p = Some 38%N → c ≠ 38%N → is_prefix p (c :: s) = false.
Proof.
  destruct p as [| x p]; [done |]. simpl. intros [= ->] Hc.
  unfold is_prefix. simpl. apply bool_decide_eq_false_2. congruence.
Qed.

Lemma char_ref_at_plain c s : c ≠ 38%N → char_ref_at (c :: s) = None.
Proof.
  intros Hc. unfold char_ref_at.
  rewrite !is_prefix_head by (reflexivity || done). reflexivity.
Qed.

Lemma decode_refs_fuel_S f s :
  decode_refs_fuel (S f) s =
  match s with
  | [] => []
  | c :: rest =>
      match char_ref_at s with
      | Some (d, rest') => d :: decode_refs_fuel f rest'
      | None => c :: decode_refs_fuel f rest
      end
  end.
Proof. reflexivity. Qed.

Lemma decode_at_ref p d rest f :
  p ≠ [] → char_ref_at (p ++ rest) = Some (d, rest) →
  decode_refs_fuel (S f) (p ++ rest) = d :: decode_refs_fuel f rest.
Proof.
  destruct p as [| x p]; [done |]. intros _ H.
  rewrite decode_refs_fuel_S. simpl app. simpl app in H. rewrite H. reflexivity.
Qed.

Ltac ref_case :=
  apply decode_at_ref; [done |]; unfold char_ref_at;
  repeat first
    [ rewrite is_prefix_app; rewrite drop_app_length' by reflexivity; reflexivity
    | match goal with
      |- context [is_prefix ?p (?q ++ ?rest)] =>
        replace (is_prefix p (q ++ rest)) with false by reflexivity; cbv beta iota
      end ].

Lemma decode_escape_char c rest f :
  decode_refs_fuel (S f) (escape_char c ++ rest) = c :: decode_refs_fuel f rest.
Proof.
  unfold escape_char.
  destruct (N.eqb_spec c 38) as [-> |]; [ref_case |].
  destruct (N.eqb_spec c 160) as [-> |]; [ref_case |].
  destruct (N.eqb_spec c 60) as [-> |]; [ref_case |].
  destruct (N.eqb_spec c 62) as [-> |]; [ref_case |].
  simpl app. rewrite decode_refs_fuel_S, char_ref_at_plain by done. reflexivity.
Qed.

Lemma escape_char_length c : 1 <= length (escape_char c).
Proof.
  unfold escape_char.
  destruct (N.eqb c 38), (N.eqb c 160), (N.eqb c 60), (N.eqb c 62); simpl; lia.
Qed.

Lemma decode_escape_fuel s f :
  length (escapeHtml s) <= f → decode_refs_fuel f (escapeHtml s) = s.
Proof.
  revert f. induction s as [| c s IH]; intros f Hf; [by destruct f |].
  rewrite escapeHtml_cons in *. rewrite length_app in Hf.
  pose proof (escape_char_length c).
  destruct f as [| f]; [lia |].
  rewrite decode_escape_char, IH; [done | lia].
Qed.

(** X7: decoding the character references in the output of [escapeHtml]
    gives back the text, so the card shows the title unchanged; in
    particular two different texts never escape to the same markup. *)
Theorem escapeHtml_roundtrip (s : list N) :
  decode_refs (escapeHtml s) = s ∧
  ∀ s', escapeHtml s' = escapeHtml s → s' = s.
Proof.
  assert (∀ t, decode_refs (escapeHtml t) = t) as Hd.
  { intros t. by apply decode_escape_fuel. }
  split; [apply Hd |]. intros s' H. by rewrite <- (Hd s'), H, Hd.
Qed.




Lemma take_until_quote_length t : length (take_until_quote t) <= length t.
Proof.
  induction t as [| c t IH]; simpl; [lia |]. destruct (N.eqb c 34); simpl; lia.
Qed.


(* ------------------------------------------------------------------ *)
(** ** [debounce] and the observer *)

Lemma debounce_run_sublist {Arg} (evs : list (debounce_event Arg)) (t : option Arg) :
  debounce_run t evs `sublist_of`
    (match t with Some a => [a] | None => [] end) ++ call_args evs.
Proof.
  revert t. induction evs as [| [a |] evs IH]; intros t; simpl.
  - apply sublist_nil_l.
  - apply sublist_inserts_l. apply IH.
  - destruct t as [a |]; simpl.
    + apply sublist_skip. apply IH.
    + apply IH.
Qed.

(** X9: the debounced function runs [func] at most once per call, with the
    arguments of calls in their order: the runs are a sublist of the calls. *)
Theorem debounce_runs_sublist {Arg} (evs : list (debounce_event Arg)) :
  debounce_run None evs `sublist_of` call_args evs ∧
  length (debounce_run None evs) <= length (call_args evs).
Proof.
  pose proof (debounce_run_sublist evs None) as H. split; [exact H |].
  by apply sublist_length.
Qed.

(** X10: a burst of calls with no pause of [wait] between them, followed by
    one pause, runs [func] exactly once, with the last call's arguments,
    whatever timer was pending before. *)
Theorem debounce_burst_runs_last {Arg} (t : option Arg) (prev : list Arg) (a : Arg)
    (evs : list (debounce_event Arg)) :
  debounce_run t (map DCall (prev ++ [a]) ++ DElapse :: evs) = a :: debounce_run None evs.
Proof.
  revert t. induction prev as [| b prev IH]; intros t; simpl; [reflexivity |].
  apply IH.
Qed.

Lemma observer_callback_idle st es :
  isLoading st = true ∨ hasMore st = false → observer_callback st es = (0, st).
Proof.
  intros H. induction es as [| e es IH]; simpl; [done |].
  destruct H as [-> | ->]; rewrite ?andb_false_r, ?andb_false_l; simpl;
    destruct e; simpl; rewrite ?andb_false_r; exact IH.
Qed.

(** X11: one batch of observer entries starts at most one fetch, and starts
    one exactly when some entry intersects while no load runs and [hasMore]
    holds. *)
Theorem observer_single_fetch (st : MemeApp) (es : list bool) :
  fst (observer_callback st es) <= 1 ∧
  (fst (observer_callback st es) = 1 ↔
     existsb (λ e, e) es = true ∧ isLoading st = false ∧ hasMore st = true).
Proof.
  destruct (isLoading st) eqn:El.
  { rewrite observer_callback_idle by auto. simpl. split; [lia |]. split; [lia | naive_solver]. }
  destruct (hasMore st) eqn:Eh.
  2:{ rewrite observer_callback_idle by auto. simpl. split; [lia |]. split; [lia | naive_solver]. }
  induction es as [| e es IH]; simpl; [split; [lia |]; split; [lia | naive_solver] |].
  rewrite El, Eh. destruct e; simpl.
  - unfold loadMore_start. rewrite El, Eh. simpl.
    rewrite observer_callback_idle by (left; reflexivity). simpl. split; [lia | naive_solver].
  - exact IH.
Qed.

(* ------------------------------------------------------------------ *)
(** ** [loadMore] and [loadInitialMemes] *)

(** X12: when [parseMemes] throws in [loadMore], the catch only counts a
    failure: nothing is rendered, the cursor, the ledger and the feed stay,
    and [hasMore] stays true even when the count reaches
    [maxFailedAttempts]. *)
Theorem loadMore_catch_path (st : MemeApp) :
  isLoading st = false → hasMore st = true →
  let '(st', r) := loadMore st (Some NotIterable) in
  r = [] ∧ failedAttempts st' = S (failedAttempts st) ∧ hasMore st' = true ∧
  endShown st' = endShown st ∧ currentSubredditIndex st' = currentSubredditIndex st ∧
  seenIds st' = seenIds st ∧ feed st' = feed st ∧ isLoading st' = false.
Proof.
  intros Hl Hh. unfold loadMore, loadMore_start. rewrite Hl, Hh. simpl.
  destruct st; simpl in *; subst. repeat split; reflexivity.
Qed.

(** X13: a [loadMore] whose page parses to a non-empty list appends exactly
    those cards after the existing feed, resets [failedAttempts], records
    the new ledger and moves the cursor to the next category. *)
Theorem loadMore_appends (st : MemeApp) (d : response) (m : meme) (ms : list meme)
    (s : gset string) :
  isLoading st = false → hasMore st = true →
  parseMemes (seenIds st) d = Some (m :: ms, s) →
  let '(st', r) := loadMore st (Some d) in
  r = m :: ms ∧ feed st' = feed st ++ map Card (m :: ms) ∧ failedAttempts st' = 0 ∧
  seenIds st' = s ∧ hasMore st' = true ∧ endShown st' = endShown st ∧
  currentSubredditIndex st' = (currentSubredditIndex st + 1) mod length subreddits ∧
  isLoading st' = false.
Proof.
  intros Hl Hh Hp. unfold loadMore, loadMore_start. rewrite Hl, Hh. simpl.
  unfold loadMore_finish, loadMore_try. simpl. rewrite Hp. simpl.
  destruct st; simpl in *; subst. repeat split; reflexivity.
Qed.

(** X14: once [hasMore] is false, no sequence of loads (without a reload)
    makes it true again or hides the end message. *)
Theorem exhausted_stays_exhausted (st : MemeApp) (ls : list load) :
  hasMore st = false →
  hasMore (fst (run st ls)) = false ∧ endShown (fst (run st ls)) = endShown st.
Proof.
  revert st. induction ls as [| [data | results rs] ls IH]; intros st Hh; simpl; [done | |].
  - unfold loadMore, loadMore_start. rewrite Hh, orb_true_r. simpl.
    specialize (IH st Hh). destruct (run st ls); exact IH.
  - destruct (loadInitialMemes st results rs) as [st1 r1] eqn:E.
    destruct (loadInitial_finish_fields (loadInitial_start st) results rs) as (_ & _ & H3 & H4).
    unfold loadInitialMemes in E. rewrite E in H3, H4. simpl in H3, H4.
    destruct (run st1 ls) as [st2 r2] eqn:E2. simpl.
    destruct (IH st1 ltac:(congruence)) as [IH1 IH2]. rewrite E2 in IH1, IH2.
    simpl in *. split; congruence.
Qed.

(** X15: the ledger [seenIds] only grows over a sequence of loads. *)
Theorem run_seenIds_grow (st : MemeApp) (ls : list load) :
  seenIds st ⊆ seenIds (fst (run st ls)).
Proof.
  destruct (run st ls) as [st' r] eqn:E. apply run_fresh in E. apply E.
Qed.

(** X16: whatever [Math.random()] returns, [shuffleArray] returns a
    permutation of its input, of the same length. *)
Theorem shuffleArray_permutes {A} (rs : list Z) (a : list A) :
  shuffleArray rs a ≡ₚ a ∧ length (shuffleArray rs a) = length a.
Proof.
  pose proof (shuffleArray_perm rs a) as H. split; [exact H |]. by apply Permutation_length.
Qed.

(** X17: when the initial fan-out completes with items, the feed becomes
    exactly the cards shown (skeletons and old content gone), and it shows
    [min itemsPerPage (number parsed)] of the parsed items; [isLoading] is
    false and [failedAttempts] is 0. *)
Theorem loadInitialMemes_success (st st1 : MemeApp) (results : list (option response))
    (rs : list Z) (all : list meme) :
  initial_loop (loadInitial_start st) results [] = inl (st1, all) → all ≠ [] →
  let '(st', r) := loadInitialMemes st results rs in
  feed st' = map Card r ∧ length r = min (itemsPerPage st) (length all) ∧
  (∀ m, m ∈ r → m ∈ all) ∧ isLoading st' = false ∧ failedAttempts st' = 0 ∧
  seenIds st' = seenIds st1.
Proof.
  intros Hi Hne. pose proof (initial_loop_set (loadInitial_start st) results []) as Hs.
  rewrite Hi in Hs.
  unfold loadInitialMemes, loadInitial_finish. rewrite Hi.
  destruct all as [| m0 all']; [done |]. simpl.
  pose proof (shuffleArray_perm rs (m0 :: all')) as Hp.
  rewrite Hs. simpl. repeat split.
  - rewrite length_take, (Permutation_length Hp). reflexivity.
  - intros m Hm. apply elem_of_take in Hm as (i & Hi' & _).
    rewrite <- Hp. by eapply list_elem_of_lookup_2.
Qed.

(** X18: when [parseMemes] throws during the initial fan-out, nothing
    catches it: [isLoading] stays true, the skeletons stay, and every later
    [loadMore] returns at its guard (until a reload). *)
Theorem loadInitialMemes_reject (st st1 : MemeApp) (results : list (option response))
    (rs : list Z) :
  initial_loop (loadInitial_start st) results [] = inr st1 →
  let '(st', r) := loadInitialMemes st results rs in
  r = [] ∧ isLoading st' = true ∧ feed st' = feed st ∧ ∀ d, loadMore st' d = (st', []).
Proof.
  intros Hi. pose proof (initial_loop_set (loadInitial_start st) results []) as Hs.
  rewrite Hi in Hs.
  unfold loadInitialMemes, loadInitial_finish. rewrite Hi.
  rewrite Hs. simpl. repeat split.
  all: intros d; unfold loadMore, loadMore_start; simpl; reflexivity.
Qed.

(** X22: a reload does not cancel a [loadMore] already waiting on its fetch.
    When that fetch settles during the reload's initial load, the old
    [loadMore] runs [isLoading = false] on the fresh session, so a new
    [loadMore] can start while the initial load is still pending. *)
Theorem reload_keeps_inflight_loadMore (st0 st1 : MemeApp) (data : option response) :
  loadMore_start st0 = Some st1 →
  let st3 := fst (loadMore_finish (reloadFeed st1) data) in
  isLoading (reloadFeed st1) = true ∧ isLoading st3 = false ∧ hasMore st3 = true ∧
  is_Some (loadMore_start st3).
Proof.
  intros _. unfold loadMore_finish, loadMore_try. cbn zeta.
  destruct data as [d |];
    [destruct (parseMemes _ d) as [[[| m ms] s] |] |]; simpl;
    repeat split; try reflexivity; unfold loadMore_start; simpl; eexists; reflexivity.
Qed.

(* ------------------------------------------------------------------ *)
(** ** [ThemeManager] *)

Lemma theme_startup_consistent v pl : theme_consistent (theme_startup v pl).
Proof.
  unfold theme_consistent, theme_startup, applyTheme, getInitialTheme, stored_truthy. simpl.
  split; [done |]. split; [done |].
  destruct v as [t |]; [destruct (String.eqb_spec t EmptyString); simpl |];
    try destruct pl; done.
Qed.

Lemma theme_step_consistent tm ev : theme_consistent tm → theme_consistent (theme_step tm ev).
Proof.
  unfold theme_consistent. intros (H1 & H2 & H3). destruct ev as [| d]; simpl.
  - unfold toggle, applyTheme; simpl. destruct (String.eqb _ _); done.
  - unfold on_system_change, stored_truthy. rewrite H2.
    destruct (String.eqb_spec (theme tm) EmptyString); [done |]. simpl. done.
Qed.

Lemma theme_run_consistent tm evs : theme_consistent tm → theme_consistent (theme_run tm evs).
Proof.
  revert tm. induction evs as [| ev evs IH]; intros tm H; simpl; [done |].
  apply IH, theme_step_consistent, H.
Qed.

(** X19: from startup on, through any toggles and system changes, the
    attribute, the field and the saved value agree, and the saved value is a
    non-empty string. *)
Theorem theme_state_consistent (v : option string) (prefersLight : bool)
    (evs : list theme_event) :
  let tm := theme_run (theme_startup v prefersLight) evs in
  data_theme tm = theme tm ∧ stored tm = Some (theme tm) ∧ theme tm ≠ EmptyString.
Proof. apply theme_run_consistent, theme_startup_consistent. Qed.

Lemma theme_run_filter tm evs :
  theme_consistent tm → theme_run tm evs = theme_run tm (List.filter is_toggle evs).
Proof.
  revert tm. induction evs as [| [| d] evs IH]; intros tm H; simpl; [done | |].
  - apply IH, (theme_step_consistent _ Toggle), H.
  - destruct H as (H1 & H2 & H3).
    unfold on_system_change, stored_truthy. rewrite H2.
    destruct (String.eqb_spec (theme tm) EmptyString); [done |]. simpl. apply IH. done.
Qed.

(** X20: after startup, the theme depends only on the toggle clicks: every
    change of the OS color scheme is ignored. *)
Theorem theme_only_toggles_count (v : option string) (prefersLight : bool)
    (evs : list theme_event) :
  theme_run (theme_startup v prefersLight) evs =
  theme_run (theme_startup v prefersLight) (List.filter is_toggle evs).
Proof. apply theme_run_filter, theme_startup_consistent. Qed.

(** X21: toggling twice from "dark" or "light" comes back to the same
    theme; from any other saved theme, the first toggle gives "dark". *)
Theorem toggle_alternates :
  (∀ tm, theme tm = "dark"%string ∨ theme tm = "light"%string →
     toggle (toggle tm) = applyTheme (theme tm) tm) ∧
  (∀ tm, theme tm ≠ "dark"%string → theme (toggle tm) = "dark"%string).
Proof.
  split.
  - intros tm [H | H]; unfold toggle; rewrite H; reflexivity.
  - intros tm H. unfold toggle. simpl.
    destruct (String.eqb_spec (theme tm) "dark"); [done |]. reflexivity.
Qed.


(* ------------------------------------------------------------------ *)
(** ** The statements at concrete inputs *)

Lemma three_empty_loads_exhaust_witness :
  isLoading (initial_app 8) = false ∧ hasMore (initial_app 8) = true ∧
  failedAttempts (initial_app 8) = 0 ∧
  hasMore (fst (loadMore (fst (loadMore (fst (loadMore (initial_app 8) None))
                                        (Some (MemeList []))))
                         (Some NoMemes))) = false.
Proof.
  split; [reflexivity |]. split; [reflexivity |]. split; [reflexivity |].
  destruct (three_empty_loads_exhaust (initial_app 8) None (Some (MemeList []))
              (Some NoMemes)) as [H _];
    [reflexivity | reflexivity | reflexivity | left; reflexivity
    | right; exists (MemeList []), ∅; split; reflexivity
    | right; exists NoMemes, ∅; split; reflexivity | exact H].
Defined.

Lemma loadMore_guard_witness :
  (isLoading (set_isLoading true (initial_app 8)) = true ∨
   hasMore (set_isLoading true (initial_app 8)) = false) ∧
  loadMore (set_isLoading true (initial_app 8)) None
    = (set_isLoading true (initial_app 8), []) ∧
  fst (rapid_calls (initial_app 8) 2) = 1.
Proof.
  split; [left; reflexivity |]. split.
  - destruct (loadMore_guard (set_isLoading true (initial_app 8))) as [H _].
    apply H. left; reflexivity.
  - destruct (loadMore_guard (initial_app 8)) as [_ H].
    rewrite (H 2); [reflexivity | lia].
Defined.

Lemma reloadFeed_resets_witness :
  nsfw (sample_post "a" false) = false ∧
  fst (parse_loop (seenIds (reloadFeed (set_seenIds {[ "a" ]} (initial_app 8))))
         [sample_post "a" false]) = [to_meme (sample_post "a" false)].
Proof.
  split; [reflexivity |].
  destruct (reloadFeed_resets (set_seenIds {[ "a" ]} (initial_app 8)))
    as (_ & _ & _ & _ & _ & _ & _ & _ & _ & H).
  apply H. reflexivity.
Defined.

Lemma initial_empty_shows_error_witness :
  hasMore (initial_app 8) = true ∧
  initial_loop (loadInitial_start (initial_app 8)) [None; None; None] []
    = inl (loadInitial_start (initial_app 8), []) ∧
  feed (fst (loadInitialMemes (initial_app 8) [None; None; None] []))
    = [ErrorBox no_memes_message].
Proof.
  split; [reflexivity |]. split; [reflexivity |].
  pose proof (initial_empty_shows_error (initial_app 8)
                (loadInitial_start (initial_app 8)) [None; None; None] []
                ltac:(reflexivity) ltac:(reflexivity)) as H.
  revert H.
  destruct (loadInitialMemes (initial_app 8) [None; None; None] []) as [st' r].
  intros (_ & H & _). exact H.
Defined.

Lemma parseMemes_is_filter_witness :
  nsfw (sample_post "c" true) = true ∧
  parse_loop ∅ [sample_post "c" true; sample_post "a" false]
    = parse_loop ∅ [sample_post "a" false].
Proof.
  split; [reflexivity |].
  destruct (parseMemes_is_filter ∅ []) as (_ & H & _).
  apply H. reflexivity.
Defined.

Lemma loadMore_failure_accounting_witness :
  isLoading (initial_app 8) = false ∧ hasMore (initial_app 8) = true ∧
  failedAttempts (fst (loadMore (initial_app 8) (Some (MemeList [sample_post "a" false]))))
    = 0.
Proof.
  split; [reflexivity |]. split; [reflexivity |].
  destruct (loadMore_failure_accounting (initial_app 8) ltac:(reflexivity)
              ltac:(reflexivity)) as (_ & _ & _ & H).
  eapply H. reflexivity.
Defined.

Lemma shuffleArray_uniform_fisher_yates_witness :
  shuffleArray [0%Z; (2 ^ 52)%Z; 0%Z] [1; 2; 3; 4]
    = fisher_yates (choices_of [0%Z; (2 ^ 52)%Z; 0%Z] 4) [1; 2; 3; 4] ∧
  exists! cs, In cs (choice_space 3) ∧ fisher_yates cs [1; 2; 3] = [3; 1; 2].
Proof.
  destruct (@shuffleArray_uniform_fisher_yates nat nat) as (H1 & _ & _ & _ & H5 & _).
  split.
  - apply (H1 [0%Z; (2 ^ 52)%Z; 0%Z] [1; 2; 3; 4]).
    repeat constructor; unfold random_denominator; lia.
  - apply (H5 [1; 2; 3]).
    + apply (proj1 (bool_decide_eq_true _)). vm_compute. reflexivity.
    + apply (proj1 (bool_decide_eq_true _)). vm_compute. reflexivity.
Defined.

Lemma loadMore_always_clears_loading_witness :
  loadMore_start (initial_app 8)
    = Some (set_loadingActive true (set_isLoading true (initial_app 8))) ∧
  isLoading (fst (loadMore (initial_app 8) (Some NotIterable))) = false.
Proof.
  split; [reflexivity |].
  destruct (loadMore_always_clears_loading (initial_app 8)
              (set_loadingActive true (set_isLoading true (initial_app 8)))
              (Some NotIterable) ltac:(reflexivity)) as (_ & H & _).
  exact H.
Defined.

Lemma calculateItemsPerPage_monotone_witness :
  (700 <= 5000)%Z ∧ (calculateItemsPerPage 700 <= calculateItemsPerPage 5000)%Z.
Proof.
  split; [lia |]. apply calculateItemsPerPage_monotone. lia.
Defined.

Lemma loadMore_catch_path_witness :
  isLoading (set_failed 2 (initial_app 8)) = false ∧
  hasMore (set_failed 2 (initial_app 8)) = true ∧
  hasMore (fst (loadMore (set_failed 2 (initial_app 8)) (Some NotIterable))) = true.
Proof.
  split; [reflexivity |]. split; [reflexivity |].
  pose proof (loadMore_catch_path (set_failed 2 (initial_app 8))
                ltac:(reflexivity) ltac:(reflexivity)) as H.
  revert H. destruct (loadMore (set_failed 2 (initial_app 8)) (Some NotIterable)) as [st' r].
  intros (_ & _ & H & _). exact H.
Defined.

Lemma loadMore_appends_witness :
  isLoading (initial_app 8) = false ∧ hasMore (initial_app 8) = true ∧
  parseMemes (seenIds (initial_app 8)) (MemeList [sample_post "a" false])
    = Some ([to_meme (sample_post "a" false)], {[ "a"%string ]} ∪ ∅) ∧
  feed (fst (loadMore (initial_app 8) (Some (MemeList [sample_post "a" false]))))
    = replicate 8 Skeleton ++ [Card (to_meme (sample_post "a" false))].
Proof.
  split; [reflexivity |]. split; [reflexivity |]. split; [reflexivity |].
  pose proof (loadMore_appends (initial_app 8) (MemeList [sample_post "a" false])
                (to_meme (sample_post "a" false)) [] ({[ "a"%string ]} ∪ ∅)
                ltac:(reflexivity) ltac:(reflexivity) ltac:(reflexivity)) as H.
  revert H.
  destruct (loadMore (initial_app 8) (Some (MemeList [sample_post "a" false]))) as [st' r].
  intros (_ & H & _). exact H.
Defined.

Lemma exhausted_stays_exhausted_witness :
  hasMore (set_hasMore false (initial_app 8)) = false ∧
  hasMore (fst (run (set_hasMore false (initial_app 8))
                   [LoadMore None; LoadInitial [Some (MemeList [sample_post "a" false])] []]))
    = false.
Proof.
  split; [reflexivity |].
  apply (exhausted_stays_exhausted (set_hasMore false (initial_app 8))
           [LoadMore None; LoadInitial [Some (MemeList [sample_post "a" false])] []]).
  reflexivity.
Defined.

Lemma loadInitialMemes_success_witness :
  initial_loop (loadInitial_start (initial_app 2))
    [Some (MemeList [sample_post "a" false; sample_post "b" false; sample_post "c" false])] []
  = inl (set_seenIds ({[ "c"%string ]} ∪ ({[ "b"%string ]} ∪ ({[ "a"%string ]} ∪ ∅)))
           (loadInitial_start (initial_app 2)),
         map to_meme [sample_post "a" false; sample_post "b" false; sample_post "c" false]) ∧
  length (snd (loadInitialMemes (initial_app 2)
    [Some (MemeList [sample_post "a" false; sample_post "b" false; sample_post "c" false])]
    [0%Z; 0%Z])) = 2.
Proof.
  split; [reflexivity |].
  pose proof (loadInitialMemes_success (initial_app 2)
    (set_seenIds ({[ "c"%string ]} ∪ ({[ "b"%string ]} ∪ ({[ "a"%string ]} ∪ ∅)))
       (loadInitial_start (initial_app 2)))
    [Some (MemeList [sample_post "a" false; sample_post "b" false; sample_post "c" false])]
    [0%Z; 0%Z]
    (map to_meme [sample_post "a" false; sample_post "b" false; sample_post "c" false])
    ltac:(reflexivity) ltac:(discriminate)) as H.
  revert H.
  destruct (loadInitialMemes (initial_app 2)
    [Some (MemeList [sample_post "a" false; sample_post "b" false; sample_post "c" false])]
    [0%Z; 0%Z]) as [st' r].
  intros (_ & H & _). simpl. rewrite H. reflexivity.
Defined.

Lemma loadInitialMemes_reject_witness :
  initial_loop (loadInitial_start (initial_app 2)) [Some NotIterable] []
    = inr (loadInitial_start (initial_app 2)) ∧
  isLoading (fst (loadInitialMemes (initial_app 2) [Some NotIterable] [])) = true.
Proof.
  split; [reflexivity |].
  pose proof (loadInitialMemes_reject (initial_app 2) (loadInitial_start (initial_app 2))
                [Some NotIterable] [] ltac:(reflexivity)) as H.
  revert H. destruct (loadInitialMemes (initial_app 2) [Some NotIterable] []) as [st' r].
  intros (_ & H & _). exact H.
Defined.

Lemma reload_keeps_inflight_loadMore_witness :
  loadMore_start (initial_app 8)
    = Some (set_loadingActive true (set_isLoading true (initial_app 8))) ∧
  isLoading (fst (loadMore_finish
               (reloadFeed (set_loadingActive true (set_isLoading true (initial_app 8))))
               None)) = false.
Proof.
  split; [reflexivity |].
  destruct (reload_keeps_inflight_loadMore (initial_app 8)
              (set_loadingActive true (set_isLoading true (initial_app 8))) None
              ltac:(reflexivity)) as (_ & H & _).
  exact H.
Defined.
